(** * Pipeline-progress reducer and sample registry

    A shallow embedding of the progress view (the [LogDisplay] components of
    [client/app/components]) and of the zustand sample store
    ([app/store/useStore.ts]), with the properties the specification states
    about them. *)

From Stdlib Require Import Ascii String ZArith.
From stdpp Require Import base tactics option list strings gmap.

Local Open Scope string_scope.
Local Open Scope list_scope.
#[local] Set Warnings "-register-all".

(** ** JavaScript strings *)

Module JsString.

(** [c.toLowerCase()] on one code unit; the messages of the backend are
    ASCII, and only the letters A-Z are mapped. *)
Definition lower_ascii (c : ascii) : ascii :=
  let n := nat_of_ascii c in
  if (65 <=? n)%nat && (n <=? 90)%nat then ascii_of_nat (n + 32) else c.

Fixpoint toLowerCase (s : string) : string :=
  match s with
  | EmptyString => EmptyString
  | String c s' => String (lower_ascii c) (toLowerCase s')
  end.

(** [s.startsWith(sub)] *)
Fixpoint startsWith (s sub : string) : bool :=
  match sub, s with
  | EmptyString, _ => true
  | String _ _, EmptyString => false
  | String a sub', String b s' =>
      if Ascii.eqb a b then startsWith s' sub' else false
  end.

(** [s.includes(sub)]: [sub] occurs in [s] at some offset. *)
Fixpoint includes (s sub : string) : bool :=
  if startsWith s sub then true
  else match s with
       | EmptyString => false
       | String _ s' => includes s' sub
       end.

(** Truthiness of a string value: only the empty string is falsy. *)
Definition truthy (s : string) : bool :=
  match s with EmptyString => false | String _ _ => true end.

End JsString.

(** ** Data model *)

(** A payload of type [any]: a JSON value (numbers kept integral). *)
Inductive Json : Type :=
| JNull
| JBool (b : bool)
| JNum (n : Z)
| JStr (s : string)
| JArr (items : list Json)
| JObj (fields : list (string * Json)).

(** [PipelineStep['status']] *)
Inductive StepStatus : Type := pending | active | complete | error.

Global Instance StepStatus_eq_dec : EqDecision StepStatus.
Proof. solve_decision. Defined.

(** [PipelineStep]; a missing [resultData] property and an [undefined] one
    are both [None]. *)
Record PipelineStep : Type := mkStep {
  id : string;
  label : string;
  status : StepStatus;
  resultData : option Json;
}.

(** [{ ...s, status: st }] *)
Definition withStatus (s : PipelineStep) (st : StepStatus) : PipelineStep :=
  {| id := id s; label := label s; status := st; resultData := resultData s |}.

(** [{ ...s, status: 'complete', resultData: resultData }] *)
Definition completed (s : PipelineStep) (rd : option Json) : PipelineStep :=
  {| id := id s; label := label s; status := complete; resultData := rd |}.

(** [AnalysisLog]: the records of the stream, by their [type] field.  A
    progress record carries [step] and [status]; an absent [step] is the
    empty string (both are falsy). *)
Inductive AnalysisLog : Type :=
| LogMessage (message : string)
| Progress (step : string) (status : string)
| ClusteringResult (data : Json)
| VerificationUpdate (data : Json)
| Complete
| Error (message : string)
| JsonResult (data : Json).

Definition INITIAL_PIPELINE : list PipelineStep :=
  [ mkStep "read_sequences" "Reading Sequences..." pending None;
    mkStep "generate_embeddings" "Generating AI Embeddings..." pending None;
    mkStep "umap_hdbscan" "Running UMAP & HDBSCAN..." pending None;
    mkStep "clustering_result" "Clustering Complete" pending None;
    mkStep "ncbi_verification" "Starting NCBI Verification (Slow)..." pending None;
    mkStep "analysis_complete" "Analysis Complete" pending None ].

(** ** The reducer (Dashboard.tsx, the state updater of [LogDisplay]) *)

(** [newSteps.findIndex(s => s.id === id)]; [-1] is [None]. *)
Definition findIndexById (stepId : string) (newSteps : list PipelineStep)
  : option nat :=
  fst <$> list_find (fun s => id s = stepId) newSteps.

Definition handleCompletion (stepId : string) (rd : option Json)
    (newSteps : list PipelineStep) : list PipelineStep :=
  match findIndexById stepId newSteps with
  | None => newSteps
  | Some index =>
      match newSteps !! index with
      | None => newSteps
      | Some s =>
          if decide (status s = complete) then newSteps
          else
            let newSteps1 := <[index := completed s rd]> newSteps in
            let nextIndex := index + 1 in
            match newSteps1 !! nextIndex with
            | Some n =>
                if decide (status n = pending)
                then <[nextIndex := withStatus n active]> newSteps1
                else newSteps1
            | None => newSteps1
            end
      end
  end.

Definition activateStep (stepId : string) (newSteps : list PipelineStep)
  : list PipelineStep :=
  match findIndexById stepId newSteps with
  | None => newSteps
  | Some index =>
      match newSteps !! index with
      | Some s =>
          if decide (status s = pending)
          then <[index := withStatus s active]> newSteps
          else newSteps
      | None => newSteps
      end
  end.

(** Section A of the updater: the substring protocol of log messages. *)
Definition handleLogMessage (msg : string) (newSteps : list PipelineStep)
  : list PipelineStep :=
  let message := JsString.toLowerCase msg in
  let has := JsString.includes message in
  if has "reading sequences" then activateStep "read_sequences" newSteps
  else if has "found" && has "sequences" then
    handleCompletion "read_sequences" None newSteps
  else if has "generating" && has "embeddings" then
    activateStep "generate_embeddings" newSteps
  else if has "running umap" then
    activateStep "umap_hdbscan"
      (handleCompletion "generate_embeddings" None newSteps)
  else if has "clustering complete" then
    handleCompletion "umap_hdbscan" None newSteps
  else if has "ncbi verification" then
    activateStep "ncbi_verification" newSteps
  else newSteps.

(** The function given to [setPipelineSteps]: sections A to E applied to the
    last record of the log.  The updater returns [prevSteps] itself when
    nothing changed and the copy otherwise; both hold the same steps. *)
Definition updateSteps (lastLog : AnalysisLog) (prevSteps : list PipelineStep)
  : list PipelineStep :=
  match lastLog with
  | LogMessage msg => handleLogMessage msg prevSteps
  | Progress step st =>
      if String.eqb st "complete" && JsString.truthy step
      then handleCompletion step None prevSteps
      else prevSteps
  | ClusteringResult data =>
      handleCompletion "clustering_result" (Some data)
        (handleCompletion "umap_hdbscan" None prevSteps)
  | Complete =>
      handleCompletion "analysis_complete" None
        (handleCompletion "ncbi_verification" None prevSteps)
  | VerificationUpdate _ => activateStep "ncbi_verification" prevSteps
  | Error _ => prevSteps
  | JsonResult _ => prevSteps
  end.

(** The two pieces of component state. *)
Record DisplayState : Type := mkDisplay {
  pipelineSteps : list PipelineStep;
  lastVerificationUpdate : option AnalysisLog;
}.

Definition initialDisplay : DisplayState := mkDisplay INITIAL_PIPELINE None.

(** The effect on [logs]: reset on an empty log, otherwise fold the last
    record into the state. *)
Definition onLogsChange (logs : list AnalysisLog) (st : DisplayState)
  : DisplayState :=
  match last logs with
  | None => initialDisplay
  | Some lastLog =>
      {| pipelineSteps := updateSteps lastLog (pipelineSteps st);
         lastVerificationUpdate :=
           match lastLog with
           | VerificationUpdate _ => Some lastLog
           | _ => lastVerificationUpdate st
           end |}
  end.

(** The log grows by one record at a time and the effect runs after each
    append: [seen] is the log so far, [incoming] the records still to come. *)
Fixpoint runEffects (seen incoming : list AnalysisLog) (st : DisplayState)
  : DisplayState :=
  match incoming with
  | [] => st
  | e :: rest => runEffects (seen ++ [e]) rest (onLogsChange (seen ++ [e]) st)
  end.

(** The step array derived from an event log: a left fold of the updater
    over the six initial steps. *)
Definition deriveSteps (log : list AnalysisLog) : list PipelineStep :=
  fold_left (fun steps e => updateSteps e steps) log INITIAL_PIPELINE.

(** ** The view (LogDisplay.tsx) *)

(** The banner above the steps: present when the log holds an error record,
    with the message of the first one, or a default text when that message
    is empty. *)
Definition isError (l : AnalysisLog) : bool :=
  match l with Error _ => true | _ => false end.

Definition errorBanner (logs : list AnalysisLog) : option string :=
  match find isError logs with
  | Some (Error message) =>
      Some (if JsString.truthy message then message else "An error occurred")
  | _ => None
  end.

(** What the component shows: the raw payload of a leading [json_result]
    record, or the banner and the six steps. *)
Inductive View : Type :=
| RawJson (jsonData : Json)
| Pipeline (banner : option string) (steps : list PipelineStep).

(** The end of the memoised derivation: a verification record kept in
    [lastVerification] becomes the [resultData] of [ncbi_verification]. *)
Definition attachVerification (lastVerification : option Json)
    (steps : list PipelineStep) : list PipelineStep :=
  match lastVerification, findIndexById "ncbi_verification" steps with
  | Some v, Some index =>
      match steps !! index with
      | Some verifyStep =>
          <[index := mkStep (id verifyStep) (label verifyStep)
                       (status verifyStep) (Some v)]> steps
      | None => steps
      end
  | _, _ => steps
  end.

(** The component.  Its derivation holds the handlers of the updater above
    word for word; [lastVerification] is declared as [null] and nothing
    assigns it, so the array is returned as the handlers left it. *)
Definition LogDisplay (logs : list AnalysisLog) : View :=
  match logs with
  | JsonResult jsonData :: _ => RawJson jsonData
  | _ => Pipeline (errorBanner logs) (attachVerification None (deriveSteps logs))
  end.

(** ** The sample registry (useStore.ts) *)

Module Store.

(** Modelled from the spec: the union [Sample['status']] of the types
    module, which the store imports; the four job statuses of the data
    model. *)
Inductive SampleStatus : Type := uploading | running | complete | error.

#[global] Instance SampleStatus_eq_dec : EqDecision SampleStatus.
Proof. solve_decision. Defined.

Section Registry.

(** The store never inspects these three types of the types module. *)
Variables ProgressStep VerificationUpdate AnalysisResult : Type.

Record Sample : Type := mkSample {
  fileId : string;
  sampleId : string;
  status : SampleStatus;
  fileName : string;
  uploadDate : string;
  logs : list string;
  progress : list ProgressStep;
  verificationUpdates : list VerificationUpdate;
  latestAnalysis : option AnalysisResult;
}.

(** The data part of [AppState]. *)
Record AppState : Type := mkState { samples : list Sample }.

Definition initialState : AppState := mkState [].

(** [samples.map(s => s.fileId === fileId ? f(s) : s)] *)
Definition mapMatching (fid : string) (f : Sample -> Sample)
    (state : AppState) : AppState :=
  mkState ((fun s => if decide (fileId s = fid) then f s else s)
             <$> samples state).

Definition addSample (sample : Sample) (state : AppState) : AppState :=
  mkState (samples state ++ [sample]).

Definition updateSampleStatus (fid : string) (st : SampleStatus)
  : AppState -> AppState :=
  mapMatching fid (fun s =>
    mkSample (fileId s) (sampleId s) st (fileName s) (uploadDate s)
      (logs s) (progress s) (verificationUpdates s) (latestAnalysis s)).

Definition addSampleLog (fid : string) (log : string)
  : AppState -> AppState :=
  mapMatching fid (fun s =>
    mkSample (fileId s) (sampleId s) (status s) (fileName s) (uploadDate s)
      (logs s ++ [log]) (progress s) (verificationUpdates s)
      (latestAnalysis s)).

Definition updateSampleProgress (fid : string) (p : ProgressStep)
  : AppState -> AppState :=
  mapMatching fid (fun s =>
    mkSample (fileId s) (sampleId s) (status s) (fileName s) (uploadDate s)
      (logs s) (progress s ++ [p]) (verificationUpdates s)
      (latestAnalysis s)).

Definition setSampleAnalysisResult (fid : string) (result : AnalysisResult)
  : AppState -> AppState :=
  mapMatching fid (fun s =>
    mkSample (fileId s) (sampleId s) (status s) (fileName s) (uploadDate s)
      (logs s) (progress s) (verificationUpdates s) (Some result)).

Definition addSampleVerificationUpdate (fid : string)
    (update : VerificationUpdate) : AppState -> AppState :=
  mapMatching fid (fun s =>
    mkSample (fileId s) (sampleId s) (status s) (fileName s) (uploadDate s)
      (logs s) (progress s) (verificationUpdates s ++ [update])
      (latestAnalysis s)).

(** [samples.find(s => s.fileId === fileId)] *)
Definition getSample (fid : string) (state : AppState) : option Sample :=
  snd <$> list_find (fun s => fileId s = fid) (samples state).

(** The five mutations keyed by a file id. *)
Inductive Mutation : Type :=
| SetStatus (st : SampleStatus)
| AddLog (log : string)
| AddProgress (p : ProgressStep)
| SetAnalysisResult (result : AnalysisResult)
| AddVerificationUpdate (update : VerificationUpdate).

Definition mutate (fid : string) (m : Mutation) : AppState -> AppState :=
  match m with
  | SetStatus st => updateSampleStatus fid st
  | AddLog log => addSampleLog fid log
  | AddProgress p => updateSampleProgress fid p
  | SetAnalysisResult result => setSampleAnalysisResult fid result
  | AddVerificationUpdate update => addSampleVerificationUpdate fid update
  end.

(** A call of the store: a creation or a keyed mutation. *)
Inductive Call : Type :=
| Create (sample : Sample)
| Mutate (fid : string) (m : Mutation).

Definition perform (c : Call) : AppState -> AppState :=
  match c with
  | Create sample => addSample sample
  | Mutate fid m => mutate fid m
  end.

Definition performAll (cs : list Call) (state : AppState) : AppState :=
  fold_left (fun st c => perform c st) cs state.

(** The field a mutation writes. *)
Inductive Field : Type :=
| FStatus | FLogs | FProgress | FLatestAnalysis | FVerificationUpdates.

Definition target (m : Mutation) : Field :=
  match m with
  | SetStatus _ => FStatus
  | AddLog _ => FLogs
  | AddProgress _ => FProgress
  | SetAnalysisResult _ => FLatestAnalysis
  | AddVerificationUpdate _ => FVerificationUpdates
  end.

(** Two samples agree on every field but [f]. *)
Record agreeOutside (f : Field) (s s' : Sample) : Prop := mkAgree {
  agree_fileId : fileId s' = fileId s;
  agree_sampleId : sampleId s' = sampleId s;
  agree_fileName : fileName s' = fileName s;
  agree_uploadDate : uploadDate s' = uploadDate s;
  agree_status : f <> FStatus -> status s' = status s;
  agree_logs : f <> FLogs -> logs s' = logs s;
  agree_progress : f <> FProgress -> progress s' = progress s;
  agree_latestAnalysis :
    f <> FLatestAnalysis -> latestAnalysis s' = latestAnalysis s;
  agree_verificationUpdates :
    f <> FVerificationUpdates ->
    verificationUpdates s' = verificationUpdates s;
}.

(** The value the targeted field has after the mutation. *)
Definition updated (m : Mutation) (s s' : Sample) : Prop :=
  match m with
  | SetStatus st => status s' = st
  | AddLog log => logs s' = logs s ++ [log]
  | AddProgress p => progress s' = progress s ++ [p]
  | SetAnalysisResult result => latestAnalysis s' = Some result
  | AddVerificationUpdate update =>
      verificationUpdates s' = verificationUpdates s ++ [update]
  end.

(** Calls that write the status field. *)
Definition writesStatus (c : Call) : bool :=
  match c with
  | Mutate _ (SetStatus _) => true
  | _ => false
  end.

(** A creation that fails on a key already present would leave the
    store as it was. *)
Definition rejectsDuplicate (sample : Sample) (state : AppState) : Prop :=
  is_Some (getSample (fileId sample) state) ->
  addSample sample state = state.

End Registry.

(** The order of the job statuses: uploading, then running, then one of
    the two final ones. *)
Definition statusRank (st : SampleStatus) : nat :=
  match st with
  | uploading => 0
  | running => 1
  | complete => 2
  | error => 2
  end.

Definition forward (from to : SampleStatus) : bool :=
  bool_decide (from = to) || (statusRank from <? statusRank to)%nat.

Section Transitions.

Variables ProgressStep VerificationUpdate AnalysisResult : Type.

(** Along the calls [cs], the record at every index moves forward. *)
Definition onlyForward
    (state : AppState ProgressStep VerificationUpdate AnalysisResult)
    (cs : list (Call ProgressStep VerificationUpdate AnalysisResult))
  : Prop :=
  forall i s s',
    samples _ _ _ state !! i = Some s ->
    samples _ _ _ (performAll _ _ _ cs state) !! i = Some s' ->
    forward (status _ _ _ s) (status _ _ _ s') = true.

End Transitions.

Arguments mkSample {_ _ _}.
Arguments fileId {_ _ _}.
Arguments sampleId {_ _ _}.
Arguments status {_ _ _}.
Arguments fileName {_ _ _}.
Arguments uploadDate {_ _ _}.
Arguments logs {_ _ _}.
Arguments progress {_ _ _}.
Arguments verificationUpdates {_ _ _}.
Arguments latestAnalysis {_ _ _}.
Arguments mkState {_ _ _}.
Arguments samples {_ _ _}.
Arguments initialState {_ _ _}.
Arguments mapMatching {_ _ _}.
Arguments addSample {_ _ _}.
Arguments updateSampleStatus {_ _ _}.
Arguments addSampleLog {_ _ _}.
Arguments updateSampleProgress {_ _ _}.
Arguments setSampleAnalysisResult {_ _ _}.
Arguments addSampleVerificationUpdate {_ _ _}.
Arguments getSample {_ _ _}.
Arguments SetStatus {_ _ _}.
Arguments AddLog {_ _ _}.
Arguments AddProgress {_ _ _}.
Arguments SetAnalysisResult {_ _ _}.
Arguments AddVerificationUpdate {_ _ _}.
Arguments mutate {_ _ _}.
Arguments Create {_ _ _}.
Arguments Mutate {_ _ _}.
Arguments perform {_ _ _}.
Arguments performAll {_ _ _}.
Arguments target {_ _ _}.
Arguments agreeOutside {_ _ _}.
Arguments updated {_ _ _}.
Arguments writesStatus {_ _ _}.
Arguments rejectsDuplicate {_ _ _}.
Arguments onlyForward {_ _ _}.

(** A sample as the upload screen creates it, with the three opaque types
    taken to be JSON values. *)
Definition uploaded (fid name : string) (st : SampleStatus)
  : Sample Json Json Json :=
  mkSample fid "sample-1" st name "2025-01-01T00:00:00.000Z" [] [] [] None.

End Store.

(** ** Reading a derived array *)

(** [steps.find(s => s.id === stepId)] *)
Definition getStep (stepId : string) (steps : list PipelineStep)
  : option PipelineStep :=
  snd <$> list_find (fun s => id s = stepId) steps.

Definition statusOf (stepId : string) (steps : list PipelineStep)
  : option StepStatus :=
  status <$> getStep stepId steps.

Definition resultDataOf (stepId : string) (steps : list PipelineStep)
  : option (option Json) :=
  resultData <$> getStep stepId steps.

(** The number of steps shown as running. *)
Definition countActive (steps : list PipelineStep) : nat :=
  length (filter (fun s => status s = active) steps).

(** Progress of a status; the reducer moves a step upwards only. *)
Definition rank (st : StepStatus) : nat :=
  match st with
  | pending => 0
  | active => 1
  | error => 1
  | complete => 2
  end.

(** The effect of [activateStep] and of the cascade once the index is
    known: a pending step becomes active. *)
Definition activateAt (index : nat) (newSteps : list PipelineStep)
  : list PipelineStep :=
  match newSteps !! index with
  | Some s =>
      if decide (status s = pending)
      then <[index := withStatus s active]> newSteps
      else newSteps
  | None => newSteps
  end.

(** The effect of [handleCompletion] once the index is known. *)
Definition completeAt (index : nat) (rd : option Json)
    (newSteps : list PipelineStep) : list PipelineStep :=
  match newSteps !! index with
  | Some s =>
      if decide (status s = complete) then newSteps
      else activateAt (index + 1) (<[index := completed s rd]> newSteps)
  | None => newSteps
  end.

(** How one step may change between two derivations: identity and label
    stay, a complete step stays as it is, the rank does not drop, and no
    step turns into an error. *)
Record advances (s s' : PipelineStep) : Prop := mkAdvances {
  adv_id : id s' = id s;
  adv_label : label s' = label s;
  adv_complete : status s = complete -> s' = s;
  adv_rank : rank (status s) <= rank (status s');
  adv_error : status s' = error -> status s = error;
}.

(** The same, step by step, for two arrays. *)
Definition advancesAll (steps steps' : list PipelineStep) : Prop :=
  Forall2 advances steps steps'.

(** Step [i+1] is active only once step [i] is complete. *)
Definition chained (i : nat) (steps : list PipelineStep) : Prop :=
  forall n, steps !! S i = Some n -> status n = active ->
  exists p, steps !! i = Some p /\ status p = complete.

(** The shape every derived array has: the six identifiers in place, and
    the three steps that only the cascade (or an activation right after a
    completion) can start are chained to their predecessor. *)
Record wellChained (steps : list PipelineStep) : Prop := mkWellChained {
  wc_ids : id <$> steps = id <$> INITIAL_PIPELINE;
  wc_umap : chained 1 steps;
  wc_clustering : chained 2 steps;
  wc_analysis : chained 4 steps;
}.

(** The error record [Error message], appended to [log], turns every active
    step into an error step. *)
Definition marksActiveAsError (log : list AnalysisLog) (message : string)
  : Prop :=
  forall stepId,
    statusOf stepId (deriveSteps log) = Some active ->
    statusOf stepId (deriveSteps (log ++ [Error message])) = Some error.

(** ** More of the components *)

Definition isVerificationUpdate (l : AnalysisLog) : bool :=
  match l with VerificationUpdate _ => true | _ => false end.

Definition isJsonResult (l : AnalysisLog) : bool :=
  match l with JsonResult _ => true | _ => false end.

(** The identifiers a record hands to [handleCompletion], read off the
    sections A to D of the updater. *)
Definition completionTargets (e : AnalysisLog) : list string :=
  match e with
  | LogMessage msg =>
      let message := JsString.toLowerCase msg in
      let has := JsString.includes message in
      if has "reading sequences" then []
      else if has "found" && has "sequences" then ["read_sequences"]
      else if has "generating" && has "embeddings" then []
      else if has "running umap" then ["generate_embeddings"]
      else if has "clustering complete" then ["umap_hdbscan"]
      else []
  | Progress step st =>
      if String.eqb st "complete" && JsString.truthy step then [step] else []
  | ClusteringResult _ => ["umap_hdbscan"; "clustering_result"]
  | Complete => ["ncbi_verification"; "analysis_complete"]
  | VerificationUpdate _ => []
  | Error _ => []
  | JsonResult _ => []
  end.

(** [toggleLog] on the set of expanded cards (both components). *)
Definition toggleLog (stepId : string) (expandedLogs : gset string)
  : gset string :=
  if decide (stepId ∈ expandedLogs)
  then expandedLogs ∖ {[stepId]}
  else expandedLogs ∪ {[stepId]}.

(** The calls that create a record, by file id and in call order. *)
Definition createdIds {ProgressStep VerificationUpdate AnalysisResult : Type}
    (cs : list (Store.Call ProgressStep VerificationUpdate AnalysisResult))
  : list string :=
  omap (fun c => match c with
                 | Store.Create sample => Some (Store.fileId sample)
                 | Store.Mutate _ _ => None
                 end) cs.

(** What a payload in an array says about the log behind it. *)
Definition payloadsFrom (log : list AnalysisLog) (steps : list PipelineStep)
  : Prop :=
  forall i s d, steps !! i = Some s -> resultData s = Some d ->
    id s = "clustering_result" /\ status s = complete /\
    ClusteringResult d ∈ log.

(** Truthiness of a payload: [null], [false], [0] and the empty string
    are falsy. *)
Definition truthyJson (j : Json) : bool :=
  match j with
  | JNull => false
  | JBool b => b
  | JNum n => negb (n =? 0)%Z
  | JStr s => JsString.truthy s
  | JArr _ => true
  | JObj _ => true
  end.

(** Which element [renderPipelineStep] of Dashboard.tsx returns for a step:
    nothing ([null]), the clustering card over the payload, the
    verification card, or the plain row. *)
Inductive Rendered : Type :=
| RenderNothing
| ClusteringCard (log : Json)
| VerificationCard
| SequentialRow.

Definition renderPipelineStep (step : PipelineStep) : Rendered :=
  if decide (id step = "clustering_result" /\ status step = complete)
  then match resultData step with
       | Some log => if truthyJson log then ClusteringCard log
                     else RenderNothing
       | None => RenderNothing
       end
  else if decide (id step = "ncbi_verification" /\ status step <> pending)
  then VerificationCard
  else SequentialRow.

(** ** The event stream connector *)

Module Connector.

(** Modelled from the spec: the job record as the event stream connector
    sees it.  The connector is the hook [useAnalysisWebSocket], which the
    analysis screen calls and which is not among the sources; the record
    holds the job's status and its append-only event log. *)
Record Job : Type := mkJob {
  status : Store.SampleStatus;
  eventLog : list AnalysisLog;
}.

(** Modelled from the spec: the terminal events of the missing connector,
    [complete] and [error]. *)
Definition isTerminal (e : AnalysisLog) : bool :=
  match e with
  | Complete => true
  | Error _ => true
  | _ => false
  end.

(** Modelled from the spec: a job of the missing connector is past its
    terminal event when its log holds one. *)
Definition terminated (job : Job) : bool :=
  existsb isTerminal (eventLog job).

(** Modelled from the spec: the arrival of one event at the missing
    connector.  After a terminal event no further event is accepted: a
    late event is discarded and the log stays as it is.  Otherwise the
    event is appended in arrival order; an [error] event marks the job's
    status error and a [complete] event, the terminal success, marks it
    complete. *)
Definition receive (e : AnalysisLog) (job : Job) : Job :=
  if terminated job then job
  else
    {| status := match e with
                 | Error _ => Store.error
                 | Complete => Store.complete
                 | _ => status job
                 end;
       eventLog := eventLog job ++ [e] |}.

(** Modelled from the spec: the missing connector attaches to a job whose
    log is still empty. *)
Definition attach (st : Store.SampleStatus) : Job := mkJob st [].

(** Modelled from the spec: the events of the stream reach the missing
    connector one by one, in arrival order. *)
Definition run (events : list AnalysisLog) (job : Job) : Job :=
  fold_left (fun j e => receive e j) events job.

(** Modelled from the spec: every append of the missing connector
    triggers the recomputation of the steps from the job's log, by the
    reducer of the sources. *)
Definition steps (job : Job) : list PipelineStep :=
  deriveSteps (eventLog job).

End Connector.

(** ** The analysis context (AnalysisProvider) *)

Module AnalysisContext.

Section Provider.

(** [TaxaData] holds fractional numbers and [Date] is the clock; the
    provider stores both without looking inside. *)
Variables TaxaData Date : Type.

Record RecentAnalysis : Type := mkRecent {
  ra_id : string;
  ra_sample : string;
  ra_location : string;
  ra_status : string;
  ra_date : string;
}.

Record AnalysisData : Type := mkData {
  totalReads : Z;
  totalClusters : Z;
  novelTaxa : Z;
  recentAnalyses : list RecentAnalysis;
  taxaAbundance : list TaxaData;
  lastUpdated : option Date;
  hasUploadedFile : bool;
}.

(** [Partial<AnalysisData>]: a key that is not given is [None]. *)
Record PartialData : Type := mkPartial {
  p_totalReads : option Z;
  p_totalClusters : option Z;
  p_novelTaxa : option Z;
  p_recentAnalyses : option (list RecentAnalysis);
  p_taxaAbundance : option (list TaxaData);
  p_lastUpdated : option (option Date);
  p_hasUploadedFile : option bool;
}.

Definition defaultAnalysisData : AnalysisData :=
  mkData 0 0 0 [] [] None false.

Definition noChange : PartialData :=
  mkPartial None None None None None None None.

(** [{ ...prev, ...data, lastUpdated: new Date() }] *)
Definition updateAnalysisData (data : PartialData) (now : Date)
    (prev : AnalysisData) : AnalysisData :=
  {| totalReads := default (totalReads prev) (p_totalReads data);
     totalClusters := default (totalClusters prev) (p_totalClusters data);
     novelTaxa := default (novelTaxa prev) (p_novelTaxa data);
     recentAnalyses := default (recentAnalyses prev) (p_recentAnalyses data);
     taxaAbundance := default (taxaAbundance prev) (p_taxaAbundance data);
     lastUpdated := Some now;
     hasUploadedFile := default (hasUploadedFile prev) (p_hasUploadedFile data)
  |}.

Definition addTaxaData (taxa : list TaxaData) (now : Date)
    (prev : AnalysisData) : AnalysisData :=
  {| totalReads := totalReads prev;
     totalClusters := totalClusters prev;
     novelTaxa := novelTaxa prev;
     recentAnalyses := recentAnalyses prev;
     taxaAbundance := taxa;
     lastUpdated := Some now;
     hasUploadedFile := hasUploadedFile prev |}.

(** [[analysis, ...prev.recentAnalyses.slice(0, 2)]] *)
Definition addRecentAnalysis (analysis : RecentAnalysis) (now : Date)
    (prev : AnalysisData) : AnalysisData :=
  {| totalReads := totalReads prev;
     totalClusters := totalClusters prev;
     novelTaxa := novelTaxa prev;
     recentAnalyses := analysis :: take 2 (recentAnalyses prev);
     taxaAbundance := taxaAbundance prev;
     lastUpdated := Some now;
     hasUploadedFile := hasUploadedFile prev |}.

(** Two partial updates as one: the keys of the later one win. *)
Definition mergePartial (d1 d2 : PartialData) : PartialData :=
  {| p_totalReads := from_option Some (p_totalReads d1) (p_totalReads d2);
     p_totalClusters :=
       from_option Some (p_totalClusters d1) (p_totalClusters d2);
     p_novelTaxa := from_option Some (p_novelTaxa d1) (p_novelTaxa d2);
     p_recentAnalyses :=
       from_option Some (p_recentAnalyses d1) (p_recentAnalyses d2);
     p_taxaAbundance :=
       from_option Some (p_taxaAbundance d1) (p_taxaAbundance d2);
     p_lastUpdated := from_option Some (p_lastUpdated d1) (p_lastUpdated d2);
     p_hasUploadedFile :=
       from_option Some (p_hasUploadedFile d1) (p_hasUploadedFile d2) |}.

(** A run of [addRecentAnalysis] calls, each with its clock reading. *)
Definition addAllRecent (adds : list (RecentAnalysis * Date))
    (prev : AnalysisData) : AnalysisData :=
  fold_left (fun st a => addRecentAnalysis a.1 a.2 st) adds prev.

End Provider.

Arguments mkData {_ _}.
Arguments totalReads {_ _}.
Arguments totalClusters {_ _}.
Arguments novelTaxa {_ _}.
Arguments recentAnalyses {_ _}.
Arguments taxaAbundance {_ _}.
Arguments lastUpdated {_ _}.
Arguments hasUploadedFile {_ _}.
Arguments mkPartial {_ _}.
Arguments p_taxaAbundance {_ _}.
Arguments p_lastUpdated {_ _}.
Arguments defaultAnalysisData {_ _}.
Arguments noChange {_ _}.
Arguments updateAnalysisData {_ _}.
Arguments addTaxaData {_ _}.
Arguments addRecentAnalysis {_ _}.
Arguments mergePartial {_ _}.
Arguments addAllRecent {_ _}.

End AnalysisContext.

(** ** The samples screen (upload) *)

Module SamplesScreen.

(** What the document picker gives: it throws, it is cancelled, or it
    yields a file (its name). *)
Inductive PickResult : Type :=
| PickFailed
| Canceled
| Picked (fileName : string).

(** What the upload gives: it throws, or the server answers with the two
    identifiers. *)
Inductive UploadResult : Type :=
| UploadFailed
| Uploaded (file_id sample_id : string).

Section Upload.

Variables ProgressStep VerificationUpdate AnalysisResult : Type.

Definition newSample (file_id sample_id fileName uploadDate : string)
  : Store.Sample ProgressStep VerificationUpdate AnalysisResult :=
  Store.mkSample file_id sample_id Store.uploading fileName uploadDate
    [] [] [] None.

(** The screen state [handleUpload] touches: the registry, the [uploading]
    flag, the alert it raised and the route it pushed. *)
Record Screen : Type := mkScreen {
  store : Store.AppState ProgressStep VerificationUpdate AnalysisResult;
  uploading : bool;
  alerted : bool;
  route : option string;
}.

Definition handleUpload (pick : PickResult) (upload : UploadResult)
    (now : string) (scr : Screen) : Screen :=
  match pick with
  | PickFailed => mkScreen (store scr) false (alerted scr) (route scr)
  | Canceled => scr
  | Picked fileName =>
      match upload with
      | Uploaded file_id sample_id =>
          mkScreen
            (Store.addSample (newSample file_id sample_id fileName now)
               (store scr))
            false (alerted scr) (Some ("/sample/" +:+ file_id))
      | UploadFailed => mkScreen (store scr) false true (route scr)
      end
  end.

End Upload.

Arguments newSample {_ _ _}.
Arguments mkScreen {_ _ _}.
Arguments store {_ _ _}.
Arguments uploading {_ _ _}.
Arguments alerted {_ _ _}.
Arguments route {_ _ _}.
Arguments handleUpload {_ _ _}.

End SamplesScreen.

(** ** The analysis detail screen (analytics) *)

Module AnalysisDetail.

Section Analytics.

(** A cluster and the test [c.novelty_score > 0.7] on its fractional
    score. *)
Variable Cluster : Type.
Variable isNovel : Cluster -> bool.

(** The loop over the clusters: the two counters. *)
Definition countClusters (clusters : list Cluster) : nat * nat :=
  fold_left (fun '(novelCount, knownCount) c =>
               if isNovel c then (S novelCount, knownCount)
               else (novelCount, S knownCount))
            clusters (0, 0).

(** The integer fields of [analytics]; [null] is [None].  The two
    percentages are quotients of these by [totalClusters]. *)
Record Analytics : Type := mkAnalytics {
  novelCount : nat;
  knownCount : nat;
  totalClusters : nat;
}.

Definition analytics (clusters : list Cluster) : option Analytics :=
  match length clusters with
  | 0 => None
  | _ =>
      let '(n, k) := countClusters clusters in
      Some (mkAnalytics n k (length clusters))
  end.

End Analytics.

Arguments countClusters {_}.
Arguments analytics {_}.

End AnalysisDetail.

(** ** The training screen (file check) *)

Module Training.

(** [s.endsWith(suffix)] *)
Definition endsWith (s suffix : string) : bool :=
  let n := String.length s in
  let m := String.length suffix in
  if (m <=? n)%nat
  then String.eqb (String.substring (n - m) m s) suffix
  else false.

Definition validExtensions : list string := [".fasta"; ".fastq"; ".csv"].

Definition isValidFileType (filename : string) : bool :=
  existsb (fun ext => endsWith (JsString.toLowerCase filename) ext)
          validExtensions.

End Training.

(** ** Facts about the reducer *)

Section Reducer.

Implicit Types (steps : list PipelineStep) (s n : PipelineStep).
Implicit Types (log : list AnalysisLog) (e : AnalysisLog).

Lemma handleCompletion_at stepId rd steps :
  handleCompletion stepId rd steps =
  match findIndexById stepId steps with
  | Some index => completeAt index rd steps
  | None => steps
  end.
Proof. reflexivity. Qed.

Lemma activateStep_at stepId steps :
  activateStep stepId steps =
  match findIndexById stepId steps with
  | Some index => activateAt index steps
  | None => steps
  end.
Proof. reflexivity. Qed.

Lemma findIndexById_Some stepId steps i :
  findIndexById stepId steps = Some i ->
  exists s, steps !! i = Some s /\ id s = stepId.
Proof.
  unfold findIndexById. intros H.
  apply fmap_Some in H as [[j s] [Hf ->]].
  apply list_find_Some in Hf as (Hl & Hid & _). eauto.
Qed.

(** *** Pointwise description of the two index operations *)

Lemma activateAt_length i steps :
  length (activateAt i steps) = length steps.
Proof.
  unfold activateAt. destruct (steps !! i); [|done].
  case_decide; [|done]. by rewrite length_insert.
Qed.

Lemma activateAt_lookup_ne i j steps :
  i <> j -> activateAt i steps !! j = steps !! j.
Proof.
  intros Hne. unfold activateAt. destruct (steps !! i); [|done].
  case_decide; [|done]. by rewrite list_lookup_insert_ne.
Qed.

Lemma activateAt_lookup i steps s :
  steps !! i = Some s ->
  activateAt i steps !! i =
    Some (if decide (status s = pending) then withStatus s active else s).
Proof.
  intros Hs. unfold activateAt. rewrite Hs.
  case_decide; [|done].
  apply list_lookup_insert_eq. by eapply lookup_lt_Some.
Qed.

Lemma completeAt_length i rd steps :
  length (completeAt i rd steps) = length steps.
Proof.
  unfold completeAt. destruct (steps !! i); [|done].
  case_decide; [done|]. by rewrite activateAt_length, length_insert.
Qed.

Lemma completeAt_lookup i rd steps s :
  steps !! i = Some s ->
  completeAt i rd steps !! i =
    Some (if decide (status s = complete) then s else completed s rd).
Proof.
  intros Hs. unfold completeAt. rewrite Hs.
  case_decide; [done|].
  rewrite activateAt_lookup_ne by lia.
  apply list_lookup_insert_eq. by eapply lookup_lt_Some.
Qed.

Lemma completeAt_lookup_next i rd steps s n :
  steps !! i = Some s -> steps !! S i = Some n ->
  completeAt i rd steps !! S i =
    Some (if decide (status s = complete) then n
          else if decide (status n = pending) then withStatus n active
          else n).
Proof.
  intros Hs Hn. unfold completeAt. rewrite Hs.
  case_decide; [done|].
  replace (i + 1) with (S i) by lia.
  erewrite activateAt_lookup; [done|].
  by rewrite list_lookup_insert_ne by lia.
Qed.

Lemma completeAt_lookup_other i j rd steps :
  j <> i -> j <> S i -> completeAt i rd steps !! j = steps !! j.
Proof.
  intros H1 H2. unfold completeAt. destruct (steps !! i); [|done].
  case_decide; [done|].
  rewrite activateAt_lookup_ne by lia.
  by rewrite list_lookup_insert_ne by lia.
Qed.

(** *** Every operation advances every step *)

Lemma advances_refl s : advances s s.
Proof. by constructor. Qed.

Lemma advances_trans s1 s2 s3 :
  advances s1 s2 -> advances s2 s3 -> advances s1 s3.
Proof.
  intros [Hi1 Hl1 Hc1 Hr1 He1] [Hi2 Hl2 Hc2 Hr2 He2]. constructor.
  - congruence.
  - congruence.
  - intros Hc. specialize (Hc1 Hc). subst s2. auto.
  - lia.
  - auto.
Qed.

Lemma advances_activate s :
  status s = pending -> advances s (withStatus s active).
Proof.
  intros Hp. constructor; simpl; try done; rewrite Hp; simpl;
    [discriminate | lia].
Qed.

Lemma advances_complete s rd :
  status s <> complete -> advances s (completed s rd).
Proof.
  intros Hc. constructor; simpl; try done.
  destruct (status s); simpl; lia.
Qed.

Lemma advancesAll_refl steps : advancesAll steps steps.
Proof. apply Forall_Forall2_diag, Forall_forall. intros; apply advances_refl. Qed.

Lemma advancesAll_trans steps1 steps2 steps3 :
  advancesAll steps1 steps2 -> advancesAll steps2 steps3 ->
  advancesAll steps1 steps3.
Proof.
  unfold advancesAll. intros H1 H2.
  eapply Forall2_trans; [| exact H1 | exact H2].
  intros ???; apply advances_trans.
Qed.

Lemma activateAt_advances i steps : advancesAll steps (activateAt i steps).
Proof.
  apply Forall2_same_length_lookup. split.
  - by rewrite activateAt_length.
  - intros j x y Hx Hy. destruct (decide (i = j)) as [->|Hne].
    + rewrite (activateAt_lookup _ _ _ Hx) in Hy.
      case_decide; simplify_eq;
        [by apply advances_activate | apply advances_refl].
    + rewrite activateAt_lookup_ne in Hy by done.
      simplify_eq. apply advances_refl.
Qed.

Lemma completeAt_advances i rd steps :
  advancesAll steps (completeAt i rd steps).
Proof.
  unfold completeAt. destruct (steps !! i) as [s|] eqn:Hs;
    [|apply advancesAll_refl].
  case_decide; [apply advancesAll_refl|].
  eapply advancesAll_trans; [|apply activateAt_advances].
  apply Forall2_same_length_lookup. split.
  - by rewrite length_insert.
  - intros j x y Hx Hy. destruct (decide (i = j)) as [->|Hne].
    + rewrite list_lookup_insert_eq in Hy by (by eapply lookup_lt_Some).
      simplify_eq. by apply advances_complete.
    + rewrite list_lookup_insert_ne in Hy by done.
      simplify_eq. apply advances_refl.
Qed.

Lemma handleCompletion_advances stepId rd steps :
  advancesAll steps (handleCompletion stepId rd steps).
Proof.
  rewrite handleCompletion_at. destruct (findIndexById stepId steps);
    [apply completeAt_advances | apply advancesAll_refl].
Qed.

Lemma activateStep_advances stepId steps :
  advancesAll steps (activateStep stepId steps).
Proof.
  rewrite activateStep_at. destruct (findIndexById stepId steps);
    [apply activateAt_advances | apply advancesAll_refl].
Qed.

Lemma handleLogMessage_advances msg steps :
  advancesAll steps (handleLogMessage msg steps).
Proof.
  unfold handleLogMessage.
  repeat match goal with
         | |- context [if ?b then _ else _] => destruct b
         end;
    eauto using advancesAll_refl, advancesAll_trans,
      handleCompletion_advances, activateStep_advances.
Qed.

Lemma updateSteps_advances e steps : advancesAll steps (updateSteps e steps).
Proof.
  destruct e; simpl;
    eauto using advancesAll_refl, advancesAll_trans,
      handleCompletion_advances, activateStep_advances,
      handleLogMessage_advances.
  destruct (_ && _);
    eauto using advancesAll_refl, handleCompletion_advances.
Qed.

Lemma fold_updateSteps_advances log steps :
  advancesAll steps
    (fold_left (fun steps e => updateSteps e steps) log steps).
Proof.
  revert steps. induction log as [|e log IH]; intros steps; simpl.
  - apply advancesAll_refl.
  - eapply advancesAll_trans; [apply updateSteps_advances | apply IH].
Qed.

Lemma deriveSteps_app log1 log2 :
  deriveSteps (log1 ++ log2) =
  fold_left (fun steps e => updateSteps e steps) log2 (deriveSteps log1).
Proof. unfold deriveSteps. by rewrite fold_left_app. Qed.

Lemma deriveSteps_snoc log e :
  deriveSteps (log ++ [e]) = updateSteps e (deriveSteps log).
Proof. by rewrite deriveSteps_app. Qed.

Lemma deriveSteps_advances log1 log2 :
  advancesAll (deriveSteps log1) (deriveSteps (log1 ++ log2)).
Proof. rewrite deriveSteps_app. apply fold_updateSteps_advances. Qed.

(** The effect, run after every append, computes the fold. *)
Lemma runEffects_pipelineSteps incoming seen st :
  pipelineSteps (runEffects seen incoming st) =
  fold_left (fun steps e => updateSteps e steps) incoming (pipelineSteps st).
Proof.
  revert seen st. induction incoming as [|e rest IH]; intros seen st; simpl.
  - done.
  - rewrite IH. unfold onLogsChange. by rewrite last_snoc.
Qed.

Lemma runEffects_deriveSteps log st :
  pipelineSteps (runEffects [] log (onLogsChange [] st)) = deriveSteps log.
Proof. by rewrite runEffects_pipelineSteps. Qed.

(** *** Identifiers stay in place *)

Lemma advancesAll_ids steps steps' :
  advancesAll steps steps' -> id <$> steps' = id <$> steps.
Proof.
  induction 1 as [|s s' steps steps' Hs _ IH]; [done|].
  csimpl. by rewrite IH, (adv_id _ _ Hs).
Qed.

Lemma advancesAll_lookup steps steps' i s :
  advancesAll steps steps' -> steps !! i = Some s ->
  exists s', steps' !! i = Some s' /\ advances s s'.
Proof. intros H Hs. by eapply Forall2_lookup_l. Qed.

Lemma deriveSteps_ids log :
  id <$> deriveSteps log = id <$> INITIAL_PIPELINE.
Proof. apply (advancesAll_ids _ _ (deriveSteps_advances [] log)). Qed.

Lemma deriveSteps_length log : length (deriveSteps log) = 6.
Proof.
  rewrite <- (length_fmap id), deriveSteps_ids. reflexivity.
Qed.

Lemma findIndexById_ids stepId steps steps' :
  id <$> steps = id <$> steps' ->
  findIndexById stepId steps = findIndexById stepId steps'.
Proof.
  intros Hids. unfold findIndexById.
  assert (Hf : forall l : list PipelineStep,
    fst <$> list_find (fun s => id s = stepId) l =
    fst <$> list_find (fun x => x = stepId) (id <$> l)).
  { intros l. rewrite list_find_fmap.
    destruct (list_find _ l) as [[??]|]; reflexivity. }
  by rewrite !Hf, Hids.
Qed.

Lemma getStep_lookup stepId steps :
  getStep stepId steps =
  match findIndexById stepId steps with
  | Some i => steps !! i
  | None => None
  end.
Proof.
  unfold getStep, findIndexById.
  destruct (list_find _ steps) as [[i s]|] eqn:Hf; simpl; [|done].
  apply list_find_Some in Hf as (Hl & _). by rewrite Hl.
Qed.

Lemma getStep_deriveSteps stepId log :
  getStep stepId (deriveSteps log) =
  match findIndexById stepId INITIAL_PIPELINE with
  | Some i => deriveSteps log !! i
  | None => None
  end.
Proof.
  rewrite getStep_lookup.
  by rewrite (findIndexById_ids _ _ INITIAL_PIPELINE (deriveSteps_ids log)).
Qed.

Lemma getStep_NoDup steps i s :
  NoDup (id <$> steps) -> steps !! i = Some s ->
  getStep (id s) steps = Some s.
Proof.
  intros Hnd Hs. unfold getStep.
  assert (Hf : list_find (fun x => id x = id s) steps = Some (i, s)).
  { apply list_find_Some. split_and!; [done..|].
    intros j y Hy Hlt Hyid.
    assert (j = i); [|lia].
    eapply (NoDup_lookup _ _ _ _ Hnd); rewrite list_lookup_fmap.
    - rewrite Hy. simpl. by rewrite Hyid.
    - by rewrite Hs. }
  by rewrite Hf.
Qed.

Lemma INITIAL_PIPELINE_NoDup : NoDup (id <$> INITIAL_PIPELINE).
Proof. apply (bool_decide_unpack _). vm_compute. exact I. Qed.

Lemma getStep_of_lookup log i s :
  deriveSteps log !! i = Some s -> getStep (id s) (deriveSteps log) = Some s.
Proof.
  apply getStep_NoDup. rewrite deriveSteps_ids.
  apply INITIAL_PIPELINE_NoDup.
Qed.

End Reducer.

(** ** Properties of the derived step array *)

(** C1 (monotonicity): a step that is complete in the array derived from a
    prefix of a log is found, identical (so complete, with the same
    [resultData]), at the same place and under the same identifier in the
    array derived from the whole log. *)
Theorem deriveSteps_monotone (P L : list AnalysisLog) (i : nat)
    (s : PipelineStep) :
  P `prefix_of` L ->
  deriveSteps P !! i = Some s ->
  status s = complete ->
  deriveSteps L !! i = Some s /\ getStep (id s) (deriveSteps L) = Some s.
Proof.
  intros [Q ->] Hs Hc.
  destruct (advancesAll_lookup _ _ _ _ (deriveSteps_advances P Q) Hs)
    as (s' & Hs' & Hadv).
  rewrite (adv_complete _ _ Hadv Hc) in Hs'. split; [done|].
  rewrite getStep_deriveSteps.
  assert (Hg := getStep_of_lookup _ _ _ Hs).
  rewrite getStep_deriveSteps in Hg.
  destruct (findIndexById (id s) INITIAL_PIPELINE) as [k|]; [|done].
  destruct (advancesAll_lookup _ _ _ _ (deriveSteps_advances P Q) Hg)
    as (s2 & Hs2 & Hadv2).
  by rewrite (adv_complete _ _ Hadv2 Hc) in Hs2.
Qed.

Lemma deriveSteps_monotone_witness :
  [ClusteringResult (JNum 1)] `prefix_of`
    [ClusteringResult (JNum 1); ClusteringResult (JNum 2); Complete] /\
  deriveSteps [ClusteringResult (JNum 1); ClusteringResult (JNum 2); Complete]
    !! 3
  = Some (mkStep "clustering_result" "Clustering Complete" complete
            (Some (JNum 1))).
Proof.
  split.
  - by exists [ClusteringResult (JNum 2); Complete].
  - apply (deriveSteps_monotone [ClusteringResult (JNum 1)]
             [ClusteringResult (JNum 1); ClusteringResult (JNum 2); Complete]
             3 (mkStep "clustering_result" "Clustering Complete" complete
                  (Some (JNum 1)))).
    + by exists [ClusteringResult (JNum 2); Complete].
    + vm_compute. reflexivity.
    + reflexivity.
Defined.

(** C3 (cascade rule): when [handleCompletion] reaches the step at index
    [i], the step at [i+1] becomes active exactly when step [i] was not yet
    complete and step [i+1] is pending; a next step that is active,
    complete or in error is left as it is, whatever the array. *)
Theorem handleCompletion_cascade (stepId : string) (rd : option Json)
    (steps : list PipelineStep) (i : nat) (s n : PipelineStep) :
  findIndexById stepId steps = Some i ->
  steps !! i = Some s ->
  steps !! S i = Some n ->
  (status n <> pending ->
     handleCompletion stepId rd steps !! S i = Some n) /\
  (status n = pending -> status s <> complete ->
     handleCompletion stepId rd steps !! S i = Some (withStatus n active)) /\
  (status s = complete -> handleCompletion stepId rd steps = steps).
Proof.
  intros Hi Hs Hn. rewrite handleCompletion_at, Hi.
  rewrite (completeAt_lookup_next _ _ _ _ _ Hs Hn).
  split_and!.
  - intros Hnp. by repeat case_decide.
  - intros Hp Hc. by repeat case_decide.
  - intros Hc. unfold completeAt. rewrite Hs. by case_decide.
Qed.

Lemma handleCompletion_cascade_witness :
  handleCompletion "umap_hdbscan" None
    [ mkStep "umap_hdbscan" "Running UMAP & HDBSCAN..." active None;
      mkStep "clustering_result" "Clustering Complete" error None ] !! 1
  = Some (mkStep "clustering_result" "Clustering Complete" error None).
Proof.
  refine (proj1 (handleCompletion_cascade "umap_hdbscan" None
    [ mkStep "umap_hdbscan" "Running UMAP & HDBSCAN..." active None;
      mkStep "clustering_result" "Clustering Complete" error None ]
    0 (mkStep "umap_hdbscan" "Running UMAP & HDBSCAN..." active None)
    (mkStep "clustering_result" "Clustering Complete" error None)
    _ _ _) _).
  - vm_compute. reflexivity.
  - reflexivity.
  - reflexivity.
  - simpl. discriminate.
Defined.

(** C8 (cascade correctness): after "reading sequences" and then
    "found 1000 sequences", [read_sequences] is complete and
    [generate_embeddings] is active. *)
Theorem cascade_correctness :
  let steps := deriveSteps [LogMessage "reading sequences";
                            LogMessage "found 1000 sequences"] in
  statusOf "read_sequences" steps = Some complete /\
  statusOf "generate_embeddings" steps = Some active.
Proof. vm_compute. split; reflexivity. Qed.

(** ** Active steps *)

Section ActiveSteps.

Implicit Types (steps : list PipelineStep) (s n p : PipelineStep).

Lemma complete_kept steps steps' i p :
  advancesAll steps steps' -> steps !! i = Some p -> status p = complete ->
  steps' !! i = Some p.
Proof.
  intros Hadv Hp Hc.
  destruct (advancesAll_lookup _ _ _ _ Hadv Hp) as (p' & Hp' & Ha).
  by rewrite (adv_complete _ _ Ha Hc) in Hp'.
Qed.

Lemma completeAt_chained j i rd steps :
  chained i steps -> chained i (completeAt j rd steps).
Proof.
  intros Hch n Hn Ha.
  destruct (steps !! j) as [s|] eqn:Hs; cycle 1.
  { unfold completeAt in *. rewrite Hs in *. exact (Hch n Hn Ha). }
  destruct (decide (status s = complete)) as [Hc|Hc].
  { unfold completeAt in *. rewrite Hs in *.
    rewrite decide_True in * by done. exact (Hch n Hn Ha). }
  destruct (decide (S i = j)) as [<-|Hne1].
  { rewrite (completeAt_lookup _ _ _ _ Hs) in Hn.
    rewrite decide_False in Hn by done. simplify_eq. }
  destruct (decide (i = j)) as [<-|Hne2].
  { eexists. split; [by apply completeAt_lookup|].
    by rewrite decide_False by done. }
  rewrite completeAt_lookup_other in Hn by lia.
  destruct (Hch n Hn Ha) as (p & Hp & Hpc).
  exists p. split; [|done].
  eapply complete_kept; [apply completeAt_advances|done..].
Qed.

Lemma activateAt_chained j i steps :
  j <> S i -> chained i steps -> chained i (activateAt j steps).
Proof.
  intros Hne Hch n Hn Ha.
  rewrite activateAt_lookup_ne in Hn by done.
  destruct (Hch n Hn Ha) as (p & Hp & Hpc).
  exists p. split; [|done].
  eapply complete_kept; [apply activateAt_advances|done..].
Qed.

Lemma activateAt_chained_after i steps p :
  steps !! i = Some p -> status p = complete ->
  chained i (activateAt (S i) steps).
Proof.
  intros Hp Hpc n _ _. exists p. split; [|done].
  by rewrite activateAt_lookup_ne by lia.
Qed.

Lemma handleCompletion_chained stepId i rd steps :
  chained i steps -> chained i (handleCompletion stepId rd steps).
Proof.
  intros Hch. rewrite handleCompletion_at.
  destruct (findIndexById stepId steps); [by apply completeAt_chained|done].
Qed.

Lemma handleCompletion_completes stepId rd steps i :
  findIndexById stepId steps = Some i ->
  exists p, handleCompletion stepId rd steps !! i = Some p /\
            status p = complete.
Proof.
  intros Hi. destruct (findIndexById_Some _ _ _ Hi) as (s & Hs & _).
  rewrite handleCompletion_at, Hi, (completeAt_lookup _ _ _ _ Hs).
  eexists. split; [done|]. by case_decide.
Qed.

Lemma handleCompletion_ids stepId rd steps :
  id <$> handleCompletion stepId rd steps = id <$> steps.
Proof. apply advancesAll_ids, handleCompletion_advances. Qed.

Lemma activateStep_ids stepId steps :
  id <$> activateStep stepId steps = id <$> steps.
Proof. apply advancesAll_ids, activateStep_advances. Qed.

Lemma handleCompletion_wellChained stepId rd steps :
  wellChained steps -> wellChained (handleCompletion stepId rd steps).
Proof.
  intros [Hids H1 H2 H4]. constructor;
    [by rewrite handleCompletion_ids | by apply handleCompletion_chained..].
Qed.

(** [activateStep] is called on four identifiers; only [umap_hdbscan]
    names a chained step. *)
Lemma activateStep_wellChained stepId steps :
  stepId <> "umap_hdbscan" ->
  stepId <> "clustering_result" ->
  stepId <> "analysis_complete" ->
  wellChained steps -> wellChained (activateStep stepId steps).
Proof.
  intros Hu Hc Ha [Hids H1 H2 H4].
  constructor; [by rewrite activateStep_ids|..];
    rewrite activateStep_at;
    destruct (findIndexById stepId steps) as [j|] eqn:Hj; try done;
    apply activateAt_chained; try done;
    intros ->;
    rewrite (findIndexById_ids _ _ _ Hids) in Hj;
    apply findIndexById_Some in Hj as (s & Hs & Hid);
    simpl in Hs; simplify_eq/=.
Qed.

Lemma activate_umap_wellChained steps :
  wellChained steps ->
  wellChained (activateStep "umap_hdbscan"
                 (handleCompletion "generate_embeddings" None steps)).
Proof.
  intros Hwc.
  assert (Hwc' := handleCompletion_wellChained "generate_embeddings" None _ Hwc).
  destruct Hwc' as [Hids H1 H2 H4].
  assert (Hge : findIndexById "generate_embeddings" steps = Some 1)
    by (by rewrite (findIndexById_ids _ _ _ (wc_ids _ Hwc))).
  destruct (handleCompletion_completes _ None _ _ Hge) as (p & Hp & Hpc).
  assert (Hum : findIndexById "umap_hdbscan"
                  (handleCompletion "generate_embeddings" None steps) = Some 2)
    by (by rewrite (findIndexById_ids _ _ _ Hids)).
  constructor; [by rewrite activateStep_ids|..];
    rewrite activateStep_at, Hum.
  - by eapply activateAt_chained_after.
  - by apply activateAt_chained.
  - by apply activateAt_chained.
Qed.

Lemma updateSteps_wellChained e steps :
  wellChained steps -> wellChained (updateSteps e steps).
Proof.
  intros Hwc. destruct e; simpl; try done.
  - unfold handleLogMessage.
    repeat match goal with
           | |- context [if ?b then _ else _] => destruct b
           end;
      try done;
      first [ by apply handleCompletion_wellChained
            | by apply activate_umap_wellChained
            | by apply activateStep_wellChained ].
  - destruct (_ && _); [by apply handleCompletion_wellChained|done].
  - by do 2 apply handleCompletion_wellChained.
  - by apply activateStep_wellChained.
  - by do 2 apply handleCompletion_wellChained.
Qed.

Lemma INITIAL_PIPELINE_wellChained : wellChained INITIAL_PIPELINE.
Proof.
  constructor; [done|..]; intros n Hn Ha; simpl in Hn; by simplify_eq.
Qed.

Lemma deriveSteps_wellChained log : wellChained (deriveSteps log).
Proof.
  induction log as [|e log IH] using rev_ind.
  - apply INITIAL_PIPELINE_wellChained.
  - rewrite deriveSteps_snoc. by apply updateSteps_wellChained.
Qed.

End ActiveSteps.

(** C2, as stated (at most one active step), fails: two activations by log
    messages leave two steps active. *)
Lemma single_active_counterexample :
  ~ countActive (deriveSteps [LogMessage "reading sequences";
                              LogMessage "generating embeddings"]) <= 1.
Proof. vm_compute. lia. Qed.

(** C2, amended: in every derived array at most four of the six steps are
    active; [umap_hdbscan], [clustering_result] and [analysis_complete] are
    active only when the step before them is complete. *)
Theorem active_steps_bound (log : list AnalysisLog) :
  let steps := deriveSteps log in
  countActive steps <= 4 /\
  (statusOf "umap_hdbscan" steps = Some active ->
     statusOf "generate_embeddings" steps = Some complete) /\
  (statusOf "clustering_result" steps = Some active ->
     statusOf "umap_hdbscan" steps = Some complete) /\
  (statusOf "analysis_complete" steps = Some active ->
     statusOf "ncbi_verification" steps = Some complete).
Proof.
  intros steps. subst steps.
  destruct (deriveSteps_wellChained log) as [Hids H1 H2 H4].
  destruct (deriveSteps log) as [|[ia la sa ra] [|[ib lb sb rb] [|[ic lc sc rc]
    [|[id' ld sd rd] [|[ie le se re] [|[i_f lf sf rf] [|? ?]]]]]]];
    try discriminate Hids.
  simplify_eq/=.
  assert (Hbc : sc = active -> sb = complete).
  { intros Hc. destruct (H1 _ eq_refl Hc) as (p & Hp & Hpc). by simplify_eq/=. }
  assert (Hcd : sd = active -> sc = complete).
  { intros Hc. destruct (H2 _ eq_refl Hc) as (p & Hp & Hpc). by simplify_eq/=. }
  assert (Hef : sf = active -> se = complete).
  { intros Hc. destruct (H4 _ eq_refl Hc) as (p & Hp & Hpc). by simplify_eq/=. }
  clear H1 H2 H4.
  split_and!.
  - unfold countActive. rewrite !filter_cons, filter_nil. simpl.
    repeat case_decide; simpl; try lia.
    all: try (specialize (Hbc ltac:(done)); congruence).
    all: try (specialize (Hef ltac:(done)); congruence).
  - vm_compute. intros [= ->]. by rewrite Hbc.
  - vm_compute. intros [= ->]. by rewrite Hcd.
  - vm_compute. intros [= ->]. by rewrite Hef.
Qed.

Lemma active_steps_bound_witness :
  statusOf "clustering_result"
    (deriveSteps [LogMessage "generating embeddings";
                  LogMessage "clustering complete"]) = Some active /\
  statusOf "umap_hdbscan"
    (deriveSteps [LogMessage "generating embeddings";
                  LogMessage "clustering complete"]) = Some complete.
Proof.
  assert (Hactive : statusOf "clustering_result"
            (deriveSteps [LogMessage "generating embeddings";
                          LogMessage "clustering complete"]) = Some active)
    by (vm_compute; reflexivity).
  split; [exact Hactive|].
  exact (proj1 (proj2 (proj2
    (active_steps_bound [LogMessage "generating embeddings";
                         LogMessage "clustering complete"]))) Hactive).
Defined.

(** The bound is reached. *)
Example four_active_steps :
  countActive (deriveSteps [LogMessage "reading sequences";
                            LogMessage "generating embeddings";
                            LogMessage "clustering complete";
                            LogMessage "ncbi verification"]) = 4.
Proof. vm_compute. reflexivity. Qed.

(** ** The clustering result followed by the completion *)

Section Scenario.

Implicit Types (steps : list PipelineStep) (s n p : PipelineStep).
Implicit Types (log : list AnalysisLog) (e : AnalysisLog).

Lemma deriveSteps_after log e rest :
  advancesAll (updateSteps e (deriveSteps log))
              (deriveSteps (log ++ e :: rest)).
Proof.
  rewrite (cons_middle e log rest), app_assoc, <- deriveSteps_snoc.
  apply deriveSteps_advances.
Qed.

Lemma findIndexById_deriveSteps stepId log :
  findIndexById stepId (deriveSteps log) =
  findIndexById stepId INITIAL_PIPELINE.
Proof. apply findIndexById_ids, deriveSteps_ids. Qed.

Lemma statusOf_deriveSteps stepId log k :
  findIndexById stepId INITIAL_PIPELINE = Some k ->
  statusOf stepId (deriveSteps log) = status <$> deriveSteps log !! k.
Proof.
  intros Hk. unfold statusOf. by rewrite getStep_deriveSteps, Hk.
Qed.

Lemma resultDataOf_deriveSteps stepId log k :
  findIndexById stepId INITIAL_PIPELINE = Some k ->
  resultDataOf stepId (deriveSteps log) =
  resultData <$> deriveSteps log !! k.
Proof.
  intros Hk. unfold resultDataOf. by rewrite getStep_deriveSteps, Hk.
Qed.

(** What [handleCompletion] leaves at the index it found. *)
Lemma handleCompletion_lookup stepId rd steps i s :
  findIndexById stepId steps = Some i -> steps !! i = Some s ->
  handleCompletion stepId rd steps !! i =
    Some (if decide (status s = complete) then s else completed s rd).
Proof.
  intros Hi Hs. rewrite handleCompletion_at, Hi.
  by apply completeAt_lookup.
Qed.

(** [handleCompletion] completes no step but the one it names. *)
Lemma handleCompletion_not_complete stepId rd steps i j s :
  findIndexById stepId steps = Some i -> j <> i ->
  steps !! j = Some s -> status s <> complete ->
  exists s', handleCompletion stepId rd steps !! j = Some s' /\
             status s' <> complete /\
             id s' = id s /\ label s' = label s.
Proof.
  intros Hi Hne Hs Hc. rewrite handleCompletion_at, Hi.
  destruct (findIndexById_Some _ _ _ Hi) as (si & Hsi & _).
  destruct (decide (j = S i)) as [->|Hne2].
  - rewrite (completeAt_lookup_next _ _ _ _ _ Hsi Hs).
    eexists. split; [done|]. by repeat case_decide.
  - rewrite completeAt_lookup_other by done. eauto.
Qed.

(** After a [clustering_result] record the two clustering steps are
    complete, and the payload is attached when the step was still open. *)
Lemma updateSteps_ClusteringResult log data :
  let steps := updateSteps (ClusteringResult data) (deriveSteps log) in
  (exists p, steps !! 2 = Some p /\ status p = complete) /\
  (exists p, steps !! 3 = Some p /\ status p = complete /\
     (statusOf "clustering_result" (deriveSteps log) <> Some complete ->
      resultData p = Some data)).
Proof.
  simpl.
  set (S1 := deriveSteps log).
  set (S2 := handleCompletion "umap_hdbscan" None S1).
  assert (Hi1 : findIndexById "umap_hdbscan" S1 = Some 2)
    by (unfold S1; by rewrite findIndexById_deriveSteps).
  assert (Hids2 : id <$> S2 = id <$> INITIAL_PIPELINE)
    by (unfold S2; rewrite handleCompletion_ids; apply deriveSteps_ids).
  assert (Hi2 : findIndexById "clustering_result" S2 = Some 3)
    by (by rewrite (findIndexById_ids _ _ _ Hids2)).
  split.
  - destruct (handleCompletion_completes _ None _ _ Hi1) as (p & Hp & Hpc).
    exists p. split; [|done].
    eapply complete_kept; [apply handleCompletion_advances|done..].
  - destruct (findIndexById_Some _ _ _ Hi2) as (s3 & Hs3 & _).
    rewrite (handleCompletion_lookup _ _ _ _ _ Hi2 Hs3).
    eexists. split; [done|]. split; [by case_decide|].
    intros Hopen. unfold S1 in Hopen.
    rewrite (statusOf_deriveSteps _ _ 3) in Hopen by done.
    fold S1 in Hopen.
    destruct (S1 !! 3) as [s|] eqn:Hs; cycle 1.
    { apply lookup_ge_None in Hs. unfold S1 in Hs.
      rewrite deriveSteps_length in Hs. lia. }
    assert (Hsc : status s <> complete) by (intros Hc; apply Hopen; simpl; by rewrite Hc).
    destruct (handleCompletion_not_complete "umap_hdbscan" None S1 2 3 s)
      as (s' & Hs' & Hc' & _); [done|lia|done..|].
    fold S2 in Hs'. simplify_eq. by rewrite decide_False by done.
Qed.

Lemma updateSteps_Complete log :
  let steps := updateSteps Complete (deriveSteps log) in
  (exists p, steps !! 4 = Some p /\ status p = complete) /\
  (exists p, steps !! 5 = Some p /\ status p = complete).
Proof.
  simpl.
  set (S1 := deriveSteps log).
  set (S2 := handleCompletion "ncbi_verification" None S1).
  assert (Hi1 : findIndexById "ncbi_verification" S1 = Some 4)
    by (unfold S1; by rewrite findIndexById_deriveSteps).
  assert (Hids2 : id <$> S2 = id <$> INITIAL_PIPELINE)
    by (unfold S2; rewrite handleCompletion_ids; apply deriveSteps_ids).
  assert (Hi2 : findIndexById "analysis_complete" S2 = Some 5)
    by (by rewrite (findIndexById_ids _ _ _ Hids2)).
  split.
  - destruct (handleCompletion_completes _ None _ _ Hi1) as (p & Hp & Hpc).
    exists p. split; [|done].
    eapply complete_kept; [apply handleCompletion_advances|done..].
  - by apply handleCompletion_completes.
Qed.

(** The rank of a step never drops along a log. *)
Lemma statusOf_rank_monotone P L stepId st :
  P `prefix_of` L ->
  statusOf stepId (deriveSteps P) = Some st ->
  exists st', statusOf stepId (deriveSteps L) = Some st' /\
              rank st <= rank st'.
Proof.
  intros [Q ->] Hst. unfold statusOf in *.
  rewrite getStep_deriveSteps in *.
  destruct (findIndexById stepId INITIAL_PIPELINE) as [k|]; [|done].
  apply fmap_Some in Hst as (s & Hs & ->).
  destruct (advancesAll_lookup _ _ _ _ (deriveSteps_advances P Q) Hs)
    as (s' & Hs' & Hadv).
  rewrite Hs'. simpl. eexists. split; [done|]. apply Hadv.
Qed.

End Scenario.

(** C7, as stated, fails: when a progress record has already completed
    [clustering_result], the later [clustering_result] record does not
    attach its payload. *)
Lemma clustering_payload_counterexample :
  resultDataOf "clustering_result"
    (deriveSteps [Progress "clustering_result" "complete";
                  ClusteringResult (JObj [("total_reads", JNum 500);
                                          ("total_clusters", JNum 3)]);
                  Complete])
  <> Some (Some (JObj [("total_reads", JNum 500); ("total_clusters", JNum 3)])).
Proof. vm_compute. discriminate. Qed.

(** C7, amended: in the array derived from a log that holds a
    [clustering_result] record and, later, a [complete] record, the steps
    [umap_hdbscan], [clustering_result], [ncbi_verification] and
    [analysis_complete] are complete; the payload of the [clustering_result]
    record is the [resultData] of its step when that step was not complete
    before the record; and no step (so neither [read_sequences] nor
    [generate_embeddings]) has a lower rank than after any prefix of the
    log. *)
Theorem clustering_then_complete (L1 L2 L3 : list AnalysisLog) (data : Json) :
  let L := L1 ++ ClusteringResult data :: L2 ++ Complete :: L3 in
  let steps := deriveSteps L in
  statusOf "umap_hdbscan" steps = Some complete /\
  statusOf "clustering_result" steps = Some complete /\
  statusOf "ncbi_verification" steps = Some complete /\
  statusOf "analysis_complete" steps = Some complete /\
  (statusOf "clustering_result" (deriveSteps L1) <> Some complete ->
     resultDataOf "clustering_result" steps = Some (Some data)) /\
  (forall P stepId st,
     P `prefix_of` L -> statusOf stepId (deriveSteps P) = Some st ->
     exists st', statusOf stepId steps = Some st' /\ rank st <= rank st').
Proof.
  intros L steps.
  destruct (updateSteps_ClusteringResult L1 data)
    as [(p2 & Hp2 & Hc2) (p3 & Hp3 & Hc3 & Hrd)].
  assert (Hafter := deriveSteps_after L1 (ClusteringResult data)
                      (L2 ++ Complete :: L3)).
  fold L in Hafter. fold steps in Hafter.
  assert (HL : L = (L1 ++ ClusteringResult data :: L2) ++ Complete :: L3)
    by (unfold L; by rewrite <- app_assoc).
  destruct (updateSteps_Complete (L1 ++ ClusteringResult data :: L2))
    as [(p4 & Hp4 & Hc4) (p5 & Hp5 & Hc5)].
  assert (Hafter' := deriveSteps_after (L1 ++ ClusteringResult data :: L2)
                       Complete L3).
  rewrite <- HL in Hafter'. fold steps in Hafter'.
  assert (H2 := complete_kept _ _ _ _ Hafter Hp2 Hc2).
  assert (H3 := complete_kept _ _ _ _ Hafter Hp3 Hc3).
  assert (H4 := complete_kept _ _ _ _ Hafter' Hp4 Hc4).
  assert (H5 := complete_kept _ _ _ _ Hafter' Hp5 Hc5).
  unfold steps in *.
  split_and!.
  - rewrite (statusOf_deriveSteps _ _ 2) by done. by rewrite H2; simpl; f_equal.
  - rewrite (statusOf_deriveSteps _ _ 3) by done. by rewrite H3; simpl; f_equal.
  - rewrite (statusOf_deriveSteps _ _ 4) by done. by rewrite H4; simpl; f_equal.
  - rewrite (statusOf_deriveSteps _ _ 5) by done. by rewrite H5; simpl; f_equal.
  - intros Hopen.
    rewrite (resultDataOf_deriveSteps _ _ 3) by done.
    rewrite H3. simpl. f_equal. by apply Hrd.
  - intros P stepId st. apply statusOf_rank_monotone.
Qed.

Lemma clustering_then_complete_witness :
  statusOf "clustering_result"
    (deriveSteps [LogMessage "Found 500 sequences"]) <> Some complete /\
  resultDataOf "clustering_result"
    (deriveSteps ([LogMessage "Found 500 sequences"] ++
                  ClusteringResult (JObj [("total_reads", JNum 500)]) ::
                  [] ++ Complete :: []))
  = Some (Some (JObj [("total_reads", JNum 500)])).
Proof.
  assert (Hopen : statusOf "clustering_result"
            (deriveSteps [LogMessage "Found 500 sequences"]) <> Some complete).
  { vm_compute. discriminate. }
  split; [exact Hopen|].
  exact (proj1 (proj2 (proj2 (proj2 (proj2
    (clustering_then_complete [LogMessage "Found 500 sequences"] [] []
       (JObj [("total_reads", JNum 500)])))))) Hopen).
Defined.

(** ** Properties of the registry *)

Section RegistryFacts.

Context {ProgressStep VerificationUpdate AnalysisResult : Type}.

Implicit Types
  (s : Store.Sample ProgressStep VerificationUpdate AnalysisResult)
  (state : Store.AppState ProgressStep VerificationUpdate AnalysisResult)
  (m : Store.Mutation ProgressStep VerificationUpdate AnalysisResult)
  (c : Store.Call ProgressStep VerificationUpdate AnalysisResult).

Lemma mapMatching_lookup fid f state i :
  Store.samples (Store.mapMatching fid f state) !! i =
  (fun s => if decide (Store.fileId s = fid) then f s else s)
    <$> Store.samples state !! i.
Proof. unfold Store.mapMatching. simpl. apply list_lookup_fmap. Qed.

Lemma mapMatching_length fid f state :
  length (Store.samples (Store.mapMatching fid f state)) =
  length (Store.samples state).
Proof. unfold Store.mapMatching. simpl. apply length_fmap. Qed.

Lemma mapMatching_absent fid f state :
  (forall s, s ∈ Store.samples state -> Store.fileId s <> fid) ->
  Store.mapMatching fid f state = state.
Proof.
  destruct state as [l]. unfold Store.mapMatching. simpl. intros Habs.
  f_equal. induction l as [|s l IH]; [done|]. csimpl.
  rewrite decide_False by (apply Habs; left).
  f_equal. apply IH. intros s' Hs'. apply Habs. by right.
Qed.

Lemma mutate_lookup fid m state i s :
  Store.samples state !! i = Some s ->
  exists s', Store.samples (Store.mutate fid m state) !! i = Some s' /\
    (Store.fileId s <> fid -> s' = s) /\
    (Store.fileId s = fid ->
       Store.agreeOutside (Store.target m) s s' /\ Store.updated m s s').
Proof.
  intros Hs.
  destruct m; simpl;
    unfold Store.updateSampleStatus, Store.addSampleLog,
      Store.updateSampleProgress, Store.setSampleAnalysisResult,
      Store.addSampleVerificationUpdate, Store.mapMatching;
    simpl; rewrite list_lookup_fmap, Hs; simpl;
    (eexists; split; [reflexivity|]);
    case_decide;
    (split; [done|]); intros ?; try done;
    (split; [by constructor | done]).
Qed.

Lemma mutate_length fid m state :
  length (Store.samples (Store.mutate fid m state)) =
  length (Store.samples state).
Proof. destruct m; apply mapMatching_length. Qed.

Lemma mutate_absent fid m state :
  (forall s, s ∈ Store.samples state -> Store.fileId s <> fid) ->
  Store.mutate fid m state = state.
Proof. destruct m; apply mapMatching_absent. Qed.

(** A call that does not write the status keeps the status (and the key)
    of every record already in the store. *)
Lemma perform_keeps_status c state i s :
  Store.writesStatus c = false ->
  Store.samples state !! i = Some s ->
  exists s', Store.samples (Store.perform c state) !! i = Some s' /\
             Store.status s' = Store.status s /\
             Store.fileId s' = Store.fileId s.
Proof.
  intros Hc Hs. destruct c as [sample|fid m]; simpl.
  - exists s. split; [|done]. by apply lookup_app_l_Some.
  - destruct (mutate_lookup fid m state i s Hs) as (s' & Hs' & Hne & Heq).
    exists s'. split; [done|].
    destruct (decide (Store.fileId s = fid)) as [Hfid|Hfid].
    + destruct (Heq Hfid) as [Hag _]. split; [|apply Hag].
      apply Hag. by destruct m.
    + by rewrite (Hne Hfid).
Qed.

Lemma performAll_keeps_status cs state i s :
  Forall (fun c => Store.writesStatus c = false) cs ->
  Store.samples state !! i = Some s ->
  exists s', Store.samples (Store.performAll cs state) !! i = Some s' /\
             Store.status s' = Store.status s /\
             Store.fileId s' = Store.fileId s.
Proof.
  intros Hcs. revert state s.
  induction Hcs as [|c cs Hc _ IH]; intros state s Hs; simpl.
  - eauto.
  - destruct (perform_keeps_status c state i s Hc Hs) as (s1 & Hs1 & Hst & Hid).
    destruct (IH _ _ Hs1) as (s2 & Hs2 & Hst2 & Hid2).
    exists s2. split; [done|]. split; congruence.
Qed.

Lemma getSample_addSample fid sample state :
  is_Some (Store.getSample fid state) ->
  Store.getSample fid (Store.addSample sample state) =
  Store.getSample fid state.
Proof.
  unfold Store.getSample, Store.addSample. simpl.
  intros [s Hs]. apply fmap_Some in Hs as ([i s'] & Hf & ->).
  rewrite Hf.
  assert (Hf' : list_find (fun s0 => Store.fileId s0 = fid)
                  (Store.samples state ++ [sample]) = Some (i, s'))
    by (apply list_find_app_Some; by left).
  by rewrite Hf'.
Qed.

End RegistryFacts.

(** C10 (frame of the keyed mutations): each of the five mutations keyed by
    a file id keeps the number of samples, leaves a sample with another id
    as it is, changes in a sample with that id the targeted field only, and
    leaves the whole state as it is when no sample has the id.  The
    mutations are total functions: nothing is signalled. *)
Theorem mutation_frame {ProgressStep VerificationUpdate AnalysisResult : Type}
    (fid : string)
    (m : Store.Mutation ProgressStep VerificationUpdate AnalysisResult)
    (state : Store.AppState ProgressStep VerificationUpdate AnalysisResult) :
  length (Store.samples (Store.mutate fid m state)) =
    length (Store.samples state) /\
  (forall i s, Store.samples state !! i = Some s ->
     exists s', Store.samples (Store.mutate fid m state) !! i = Some s' /\
       (Store.fileId s <> fid -> s' = s) /\
       (Store.fileId s = fid ->
          Store.agreeOutside (Store.target m) s s' /\ Store.updated m s s')) /\
  ((forall s, s ∈ Store.samples state -> Store.fileId s <> fid) ->
     Store.mutate fid m state = state).
Proof.
  split_and!.
  - apply mutate_length.
  - intros i s. apply mutate_lookup.
  - apply mutate_absent.
Qed.

Lemma mutation_frame_witness :
  Store.mutate "f2" (Store.AddLog "Found 10 sequences")
    (Store.mkState [Store.uploaded "f1" "a.fasta" Store.running])
  = Store.mkState [Store.uploaded "f1" "a.fasta" Store.running].
Proof.
  apply (proj2 (proj2 (mutation_frame "f2" (Store.AddLog "Found 10 sequences")
    (Store.mkState [Store.uploaded "f1" "a.fasta" Store.running])))).
  intros s Hs. apply list_elem_of_singleton in Hs. subst s. simpl. discriminate.
Defined.

(** C5, as stated, fails: the second creation under the same file id is
    not rejected; the store changes. *)
Lemma duplicate_create_counterexample :
  ~ Store.rejectsDuplicate
      (Store.uploaded "f1" "b.fasta" Store.uploading)
      (Store.addSample (Store.uploaded "f1" "a.fasta" Store.uploading)
         Store.initialState).
Proof.
  intros H.
  assert (Hpre : is_Some (Store.getSample
            (Store.fileId (Store.uploaded "f1" "b.fasta" Store.uploading))
            (Store.addSample (Store.uploaded "f1" "a.fasta" Store.uploading)
               Store.initialState))) by (vm_compute; eauto).
  specialize (H Hpre). vm_compute in H. discriminate H.
Qed.

(** C5, amended: [addSample] called a second time with the file id of an
    earlier call signals nothing and appends a second record with that id;
    every record already stored, the first one included, stays as it is,
    and [getSample] still returns the same record. *)
Theorem duplicate_create_appends
    {ProgressStep VerificationUpdate AnalysisResult : Type}
    (sample1 sample2 : Store.Sample ProgressStep VerificationUpdate AnalysisResult)
    (state : Store.AppState ProgressStep VerificationUpdate AnalysisResult) :
  Store.fileId sample2 = Store.fileId sample1 ->
  let st1 := Store.addSample sample1 state in
  let st2 := Store.addSample sample2 st1 in
  Store.samples st2 = Store.samples st1 ++ [sample2] /\
  (forall i s, Store.samples st1 !! i = Some s ->
               Store.samples st2 !! i = Some s) /\
  is_Some (Store.getSample (Store.fileId sample1) st1) /\
  Store.getSample (Store.fileId sample1) st2 =
    Store.getSample (Store.fileId sample1) st1.
Proof.
  intros Hid st1 st2.
  assert (Hsome : is_Some (Store.getSample (Store.fileId sample1) st1)).
  { unfold Store.getSample, st1, Store.addSample. simpl.
    apply fmap_is_Some.
    apply (list_find_elem_of _ _ sample1); [|done].
    apply elem_of_app. right. by apply list_elem_of_singleton. }
  split_and!.
  - done.
  - intros i s Hs. unfold st2, Store.addSample. simpl.
    by apply lookup_app_l_Some.
  - done.
  - by apply getSample_addSample.
Qed.

Lemma duplicate_create_appends_witness :
  Store.samples
    (Store.addSample (Store.uploaded "f1" "b.fasta" Store.uploading)
       (Store.addSample (Store.uploaded "f1" "a.fasta" Store.uploading)
          Store.initialState))
  = Store.samples
      (Store.addSample (Store.uploaded "f1" "a.fasta" Store.uploading)
         Store.initialState)
    ++ [Store.uploaded "f1" "b.fasta" Store.uploading].
Proof.
  apply (duplicate_create_appends
           (Store.uploaded "f1" "a.fasta" Store.uploading)
           (Store.uploaded "f1" "b.fasta" Store.uploading)
           Store.initialState).
  reflexivity.
Defined.

(** C6, as stated, fails: [updateSampleStatus] moves a complete record back
    to running. *)
Lemma status_backward_counterexample :
  ~ Store.onlyForward
      (Store.mkState [Store.uploaded "f1" "a.fasta" Store.complete])
      [Store.Mutate "f1" (Store.SetStatus Store.running)].
Proof.
  intros H.
  specialize (H 0 (Store.uploaded "f1" "a.fasta" Store.complete)
                (Store.uploaded "f1" "a.fasta" Store.running)
                eq_refl eq_refl).
  vm_compute in H. discriminate H.
Qed.

(** C6, amended: the status of a record is written by [updateSampleStatus]
    only, which stores the status it is given whatever the current one (a
    move backward included); along any sequence of the other registry
    calls every record already stored keeps its status. *)
Theorem status_written_by_updateSampleStatus_only
    {ProgressStep VerificationUpdate AnalysisResult : Type}
    (state : Store.AppState ProgressStep VerificationUpdate AnalysisResult) :
  (forall fid st i s,
     Store.samples state !! i = Some s -> Store.fileId s = fid ->
     exists s', Store.samples (Store.updateSampleStatus fid st state) !! i
                  = Some s' /\
                Store.status s' = st) /\
  (forall cs i s,
     Forall (fun c => Store.writesStatus c = false) cs ->
     Store.samples state !! i = Some s ->
     exists s', Store.samples (Store.performAll cs state) !! i = Some s' /\
                Store.status s' = Store.status s).
Proof.
  split.
  - intros fid st i s Hs Hid.
    destruct (mutate_lookup fid (Store.SetStatus st) state i s Hs)
      as (s' & Hs' & _ & Heq).
    exists s'. split; [done|]. by destruct (Heq Hid).
  - intros cs i s Hcs Hs.
    destruct (performAll_keeps_status cs state i s Hcs Hs)
      as (s' & Hs' & Hst & _).
    eauto.
Qed.

Lemma status_written_by_updateSampleStatus_only_witness :
  exists s',
    Store.samples
      (Store.performAll
         [Store.Mutate "f1" (Store.AddLog "Found 10 sequences");
          Store.Create (Store.uploaded "f2" "b.fasta" Store.uploading)]
         (Store.mkState [Store.uploaded "f1" "a.fasta" Store.complete]))
      !! 0 = Some s' /\
    Store.status s' = Store.complete.
Proof.
  apply (proj2 (status_written_by_updateSampleStatus_only
                  (Store.mkState [Store.uploaded "f1" "a.fasta" Store.complete]))
           [Store.Mutate "f1" (Store.AddLog "Found 10 sequences");
            Store.Create (Store.uploaded "f2" "b.fasta" Store.uploading)]
           0 (Store.uploaded "f1" "a.fasta" Store.complete)).
  - repeat constructor.
  - reflexivity.
Defined.

(** ** Errors and the raw view *)

Lemma deriveSteps_no_error (log : list AnalysisLog) (i : nat)
    (s : PipelineStep) :
  deriveSteps log !! i = Some s -> status s <> error.
Proof.
  intros Hs Herr.
  assert (Hadv := deriveSteps_advances [] log). simpl in Hadv.
  destruct (Forall2_lookup_r _ _ _ _ _ Hadv Hs) as (s0 & Hs0 & Ha).
  assert (He := adv_error _ _ Ha Herr).
  change (deriveSteps []) with INITIAL_PIPELINE in Hs0.
  do 6 (destruct i as [|i]; [simpl in Hs0; by simplify_eq|]).
  done.
Qed.

(** C4, as stated, fails: the error record leaves the active step active. *)
Lemma terminal_error_counterexample :
  ~ marksActiveAsError [LogMessage "reading sequences"] "backend failed".
Proof.
  intros H. specialize (H "read_sequences" eq_refl).
  vm_compute in H. discriminate H.
Qed.

Section ConnectorFacts.

Lemma run_snoc (events : list AnalysisLog) (e : AnalysisLog)
    (job : Connector.Job) :
  Connector.run (events ++ [e]) job =
  Connector.receive e (Connector.run events job).
Proof. unfold Connector.run. by rewrite fold_left_app. Qed.

(** In a job the connector has built, only the last event of the log can
    be terminal, and a last [error] event has set the status. *)
Lemma run_log_shape (st0 : Store.SampleStatus) (events l : list AnalysisLog)
    (e : AnalysisLog) :
  Connector.eventLog (Connector.run events (Connector.attach st0)) = l ++ [e] ->
  existsb Connector.isTerminal l = false /\
  (isError e = true ->
   Connector.status (Connector.run events (Connector.attach st0))
     = Store.error).
Proof.
  revert l e. induction events as [|e' events IH] using rev_ind; intros l e.
  - simpl. intros H. by destruct l.
  - rewrite run_snoc. unfold Connector.receive.
    destruct (Connector.terminated _) eqn:Ht; [apply IH|].
    simpl. intros [<- <-]%app_inj_tail. split; [exact Ht|].
    by destruct e'.
Qed.

End ConnectorFacts.

(** C4, amended: for every job the connector has built whose event log
    ends with an [error] event, the job's status is error; the steps are
    those derived from the log before that event, so a step that was
    active stays active and no step has status error; and no further
    event is accepted: the job stays as it is whatever arrives. *)
Theorem terminal_error (st0 : Store.SampleStatus)
    (events before : list AnalysisLog) (message : string) :
  let job := Connector.run events (Connector.attach st0) in
  Connector.eventLog job = before ++ [Error message] ->
  Connector.status job = Store.error /\
  Connector.steps job = deriveSteps before /\
  (forall stepId,
     statusOf stepId (deriveSteps before) = Some active ->
     statusOf stepId (Connector.steps job) = Some active) /\
  (forall i s, Connector.steps job !! i = Some s -> status s <> error) /\
  (forall late, Connector.receive late job = job).
Proof.
  intros job Hlog.
  destruct (run_log_shape st0 events before (Error message) Hlog)
    as [_ Hst].
  assert (Hsteps : Connector.steps job = deriveSteps before).
  { unfold Connector.steps. rewrite Hlog. apply deriveSteps_snoc. }
  split_and!.
  - by apply Hst.
  - exact Hsteps.
  - intros stepId. by rewrite Hsteps.
  - intros i s. apply deriveSteps_no_error.
  - intros late. unfold Connector.receive, Connector.terminated.
    rewrite Hlog, existsb_app. simpl. by rewrite orb_true_r.
Qed.

Lemma terminal_error_witness :
  Connector.eventLog
    (Connector.run [LogMessage "reading sequences"; Error "backend failed";
                    LogMessage "found 10 sequences"]
       (Connector.attach Store.running))
  = [LogMessage "reading sequences"] ++ [Error "backend failed"] /\
  Connector.status
    (Connector.run [LogMessage "reading sequences"; Error "backend failed";
                    LogMessage "found 10 sequences"]
       (Connector.attach Store.running)) = Store.error /\
  statusOf "read_sequences"
    (Connector.steps
       (Connector.run [LogMessage "reading sequences"; Error "backend failed";
                       LogMessage "found 10 sequences"]
          (Connector.attach Store.running))) = Some active.
Proof.
  assert (Hlog : Connector.eventLog
            (Connector.run [LogMessage "reading sequences";
                            Error "backend failed";
                            LogMessage "found 10 sequences"]
               (Connector.attach Store.running))
          = [LogMessage "reading sequences"] ++ [Error "backend failed"])
    by reflexivity.
  destruct (terminal_error Store.running
              [LogMessage "reading sequences"; Error "backend failed";
               LogMessage "found 10 sequences"]
              [LogMessage "reading sequences"] "backend failed" Hlog)
    as (Hst & _ & Hact & _ & _).
  split; [exact Hlog|]. split; [exact Hst|].
  apply Hact. vm_compute. reflexivity.
Defined.

(** C9 (raw view): when the first record of the log is a [json_result],
    the component shows its payload as it is and no step array, whatever
    records follow it. *)
Theorem json_result_bypass (jsonData : Json) (rest more : list AnalysisLog) :
  LogDisplay (JsonResult jsonData :: rest) = RawJson jsonData /\
  LogDisplay ((JsonResult jsonData :: rest) ++ more) = RawJson jsonData.
Proof. split; reflexivity. Qed.

(** ** Further properties of the reducer *)

Section Redelivery.

Implicit Types (steps : list PipelineStep) (s n p : PipelineStep).

Lemma handleCompletion_noop stepId rd steps i s :
  findIndexById stepId steps = Some i -> steps !! i = Some s ->
  status s = complete -> handleCompletion stepId rd steps = steps.
Proof.
  intros Hi Hs Hc. rewrite handleCompletion_at, Hi.
  unfold completeAt. rewrite Hs. by rewrite decide_True.
Qed.

Lemma activateStep_noop stepId steps i s :
  findIndexById stepId steps = Some i -> steps !! i = Some s ->
  status s <> pending -> activateStep stepId steps = steps.
Proof.
  intros Hi Hs Hp. rewrite activateStep_at, Hi.
  unfold activateAt. rewrite Hs. by rewrite decide_False.
Qed.

(** Once [handleCompletion] has run for an identifier, running it again
    later, after steps have only advanced, changes nothing. *)
Lemma handleCompletion_absorbed stepId rd rd' steps steps' :
  advancesAll (handleCompletion stepId rd steps) steps' ->
  handleCompletion stepId rd' steps' = steps'.
Proof.
  intros Hadv.
  assert (Hids : id <$> steps' = id <$> steps)
    by (rewrite (advancesAll_ids _ _ Hadv); apply handleCompletion_ids).
  destruct (findIndexById stepId steps) as [i|] eqn:Hi.
  - destruct (handleCompletion_completes _ rd _ _ Hi) as (p & Hp & Hpc).
    eapply handleCompletion_noop.
    + by rewrite (findIndexById_ids _ _ _ Hids).
    + by eapply complete_kept.
    + done.
  - rewrite handleCompletion_at.
    by rewrite (findIndexById_ids _ _ _ Hids), Hi.
Qed.

Lemma activateStep_idempotent stepId steps :
  activateStep stepId (activateStep stepId steps) = activateStep stepId steps.
Proof.
  destruct (findIndexById stepId steps) as [i|] eqn:Hi.
  - destruct (findIndexById_Some _ _ _ Hi) as (s & Hs & _).
    eapply activateStep_noop.
    + by rewrite (findIndexById_ids _ _ _ (activateStep_ids _ _)).
    + rewrite activateStep_at, Hi. by apply activateAt_lookup.
    + case_decide; simpl; congruence.
  - rewrite (activateStep_at _ (activateStep _ _)).
    rewrite (findIndexById_ids _ _ _ (activateStep_ids _ _)), Hi.
    done.
Qed.

End Redelivery.

(** X1 (completion is idempotent): marking a step complete a second time,
    with whatever payload, leaves the array as the first call made it, so
    the payload attached first stays. *)
Theorem handleCompletion_idempotent (stepId : string) (rd rd' : option Json)
    (steps : list PipelineStep) :
  handleCompletion stepId rd' (handleCompletion stepId rd steps) =
  handleCompletion stepId rd steps.
Proof. eapply handleCompletion_absorbed, advancesAll_refl. Qed.

(** X2 (redelivery): folding the same record twice in a row gives the
    array that folding it once gives, for every record and every array. *)
Theorem updateSteps_redelivery (e : AnalysisLog) (steps : list PipelineStep) :
  updateSteps e (updateSteps e steps) = updateSteps e steps.
Proof.
  destruct e as [msg|step st|data|data| | |]; simpl; try done.
  - unfold handleLogMessage.
    repeat match goal with
           | |- context [if ?b then _ else _] => destruct b
           end;
      try done;
      try apply activateStep_idempotent;
      try (eapply handleCompletion_absorbed, advancesAll_refl).
    erewrite handleCompletion_absorbed; [|apply activateStep_advances].
    apply activateStep_idempotent.
  - destruct (_ && _); [|done].
    eapply handleCompletion_absorbed, advancesAll_refl.
  - erewrite (handleCompletion_absorbed "umap_hdbscan");
      [|apply handleCompletion_advances].
    eapply handleCompletion_absorbed, advancesAll_refl.
  - apply activateStep_idempotent.
  - erewrite (handleCompletion_absorbed "ncbi_verification");
      [|apply handleCompletion_advances].
    eapply handleCompletion_absorbed, advancesAll_refl.
Qed.

Section Payload.

Implicit Types (steps : list PipelineStep) (s n p : PipelineStep).

Lemma activateAt_payload j steps i s' d :
  activateAt j steps !! i = Some s' -> resultData s' = Some d ->
  exists s, steps !! i = Some s /\ resultData s = Some d /\
            (s' = s \/ status s = pending).
Proof.
  intros Hs' Hd. destruct (decide (j = i)) as [->|Hne].
  - destruct (steps !! i) as [s|] eqn:Hs.
    + rewrite (activateAt_lookup _ _ _ Hs) in Hs'.
      exists s. split; [done|]. case_decide; simplify_eq/=; auto.
    + unfold activateAt in Hs'. rewrite Hs in Hs'. congruence.
  - rewrite activateAt_lookup_ne in Hs' by done. eauto.
Qed.

Lemma completeAt_payload j rd steps i s' d :
  completeAt j rd steps !! i = Some s' -> resultData s' = Some d ->
  (i = j /\ rd = Some d /\ status s' = complete) \/
  (exists s, steps !! i = Some s /\ resultData s = Some d /\
             (s' = s \/ status s = pending)).
Proof.
  intros Hs' Hd. unfold completeAt in Hs'.
  destruct (steps !! j) as [sj|] eqn:Hsj; [|right; eauto].
  case_decide as Hc; [right; eauto|].
  destruct (activateAt_payload _ _ _ _ _ Hs' Hd) as (s & Hs & Hsd & Hor).
  destruct (decide (j = i)) as [->|Hne].
  - rewrite list_lookup_insert_eq in Hs by (by eapply lookup_lt_Some).
    simplify_eq/=. destruct Hor as [->|Hp]; [|done]. left. auto.
  - rewrite list_lookup_insert_ne in Hs by done. right. eauto.
Qed.

Lemma handleCompletion_payload stepId rd steps i s' d :
  handleCompletion stepId rd steps !! i = Some s' ->
  resultData s' = Some d ->
  (findIndexById stepId steps = Some i /\ rd = Some d /\
   status s' = complete) \/
  (exists s, steps !! i = Some s /\ resultData s = Some d /\
             (s' = s \/ status s = pending)).
Proof.
  rewrite handleCompletion_at. intros Hs' Hd.
  destruct (findIndexById stepId steps) as [j|]; [|right; eauto].
  destruct (completeAt_payload _ _ _ _ _ _ Hs' Hd) as [(-> & ? & ?)|?]; auto.
Qed.

Lemma activateStep_payload stepId steps i s' d :
  activateStep stepId steps !! i = Some s' -> resultData s' = Some d ->
  exists s, steps !! i = Some s /\ resultData s = Some d /\
            (s' = s \/ status s = pending).
Proof.
  rewrite activateStep_at. intros Hs' Hd.
  destruct (findIndexById stepId steps) as [j|]; [|eauto].
  by eapply activateAt_payload.
Qed.

Lemma payloadsFrom_mono log e steps :
  payloadsFrom log steps -> payloadsFrom (log ++ [e]) steps.
Proof.
  intros H i s d Hs Hd. destruct (H i s d Hs Hd) as (? & ? & ?).
  split_and!; [done..|]. apply elem_of_app. by left.
Qed.

Lemma payloadsFrom_handleCompletion_None log stepId steps :
  payloadsFrom log steps ->
  payloadsFrom log (handleCompletion stepId None steps).
Proof.
  intros H i s' d Hs' Hd.
  destruct (handleCompletion_payload _ _ _ _ _ _ Hs' Hd)
    as [(_ & ? & _)|(s & Hs & Hsd & Hor)]; [done|].
  destruct (H i s d Hs Hsd) as (? & Hc & ?).
  destruct Hor as [->|Hp]; [done|congruence].
Qed.

Lemma payloadsFrom_activateStep log stepId steps :
  payloadsFrom log steps -> payloadsFrom log (activateStep stepId steps).
Proof.
  intros H i s' d Hs' Hd.
  destruct (activateStep_payload _ _ _ _ _ Hs' Hd) as (s & Hs & Hsd & Hor).
  destruct (H i s d Hs Hsd) as (? & Hc & ?).
  destruct Hor as [->|Hp]; [done|congruence].
Qed.

Lemma payloadsFrom_updateSteps log e steps :
  payloadsFrom log steps -> payloadsFrom (log ++ [e]) (updateSteps e steps).
Proof.
  intros H. destruct e as [msg|step st|data|data| | |]; simpl;
    try (by apply payloadsFrom_mono).
  - apply payloadsFrom_mono. unfold handleLogMessage.
    repeat match goal with
           | |- context [if ?b then _ else _] => destruct b
           end;
      auto using payloadsFrom_handleCompletion_None,
        payloadsFrom_activateStep.
  - apply payloadsFrom_mono. destruct (_ && _);
      auto using payloadsFrom_handleCompletion_None.
  - intros i s' d Hs' Hd.
    destruct (handleCompletion_payload _ _ _ _ _ _ Hs' Hd)
      as [(Hi & Hrd & Hc)|(s & Hs & Hsd & Hor)].
    + destruct (findIndexById_Some _ _ _ Hi) as (s0 & Hs0 & Hid0).
      assert (Hadv := handleCompletion_advances "clustering_result"
                        (Some data)
                        (handleCompletion "umap_hdbscan" None steps)).
      destruct (advancesAll_lookup _ _ _ _ Hadv Hs0) as (s1 & Hs1 & Ha).
      simplify_eq. split_and!; [by rewrite (adv_id _ _ Ha)|done|].
      apply elem_of_app. right. by apply list_elem_of_singleton.
    + apply (payloadsFrom_handleCompletion_None log "umap_hdbscan") in H.
      destruct (H i s d Hs Hsd) as (? & Hc & ?).
      destruct Hor as [->|Hp]; [|congruence].
      split_and!; [done..|]. apply elem_of_app. by left.
  - apply payloadsFrom_mono. by apply payloadsFrom_activateStep.
  - apply payloadsFrom_mono.
    by do 2 apply payloadsFrom_handleCompletion_None.
Qed.

Lemma deriveSteps_payloadsFrom (log : list AnalysisLog) :
  payloadsFrom log (deriveSteps log).
Proof.
  induction log as [|e log IH] using rev_ind.
  - intros i s d Hs Hd.
    do 6 (destruct i as [|i]; [simpl in Hs; by simplify_eq|]). done.
  - rewrite deriveSteps_snoc. by apply payloadsFrom_updateSteps.
Qed.

End Payload.

(** X3 (where payloads come from): in every derived array a step that
    carries a [resultData] is the complete [clustering_result] step, and
    the payload is that of a [clustering_result] record of the log. *)
Theorem resultData_provenance (log : list AnalysisLog) (i : nat)
    (s : PipelineStep) (d : Json) :
  deriveSteps log !! i = Some s ->
  resultData s = Some d ->
  id s = "clustering_result" /\ status s = complete /\
  ClusteringResult d ∈ log.
Proof. apply deriveSteps_payloadsFrom. Qed.

Lemma resultData_provenance_witness :
  ClusteringResult (JNum 7) ∈
    [LogMessage "Found 3 sequences"; ClusteringResult (JNum 7)].
Proof.
  apply (resultData_provenance
           [LogMessage "Found 3 sequences"; ClusteringResult (JNum 7)] 3
           (mkStep "clustering_result" "Clustering Complete" complete
              (Some (JNum 7))) (JNum 7)).
  - vm_compute. reflexivity.
  - reflexivity.
Defined.

Section Completion.

Implicit Types (steps : list PipelineStep) (s n p : PipelineStep).
Implicit Types (log : list AnalysisLog) (e : AnalysisLog).

(** A step that is not complete stays so under a completion of another
    identifier and under any activation. *)
Lemma handleCompletion_open stepId rd steps k p :
  steps !! k = Some p -> status p <> complete -> id p <> stepId ->
  exists p', handleCompletion stepId rd steps !! k = Some p' /\
             status p' <> complete /\ id p' = id p.
Proof.
  intros Hp Hc Hid.
  destruct (findIndexById stepId steps) as [i|] eqn:Hi.
  - destruct (handleCompletion_not_complete stepId rd steps i k p)
      as (p' & ? & ? & ? & _); [done| |done..|eauto].
    intros ->. destruct (findIndexById_Some _ _ _ Hi) as (s & Hs & Hsid).
    congruence.
  - rewrite handleCompletion_at, Hi. eauto.
Qed.

Lemma activateStep_open stepId steps k p :
  steps !! k = Some p -> status p <> complete ->
  exists p', activateStep stepId steps !! k = Some p' /\
             status p' <> complete /\ id p' = id p.
Proof.
  intros Hp Hc. rewrite activateStep_at.
  destruct (findIndexById stepId steps) as [i|]; [|eauto].
  destruct (decide (i = k)) as [->|Hne].
  - rewrite (activateAt_lookup _ _ _ Hp). eexists. split; [done|].
    by case_decide.
  - rewrite activateAt_lookup_ne by done. eauto.
Qed.

(** A record completes no step but its targets. *)
Lemma updateSteps_open e steps k p :
  steps !! k = Some p -> status p <> complete ->
  id p ∉ completionTargets e ->
  exists p', updateSteps e steps !! k = Some p' /\
             status p' <> complete /\ id p' = id p.
Proof.
  intros Hp Hc Hnot.
  destruct e as [msg|step st|data|data| | |]; simpl in *; eauto.
  - unfold handleLogMessage.
    repeat match goal with
           | |- context [if ?b then _ else _] => destruct b
           end;
      eauto using activateStep_open;
      try (apply handleCompletion_open; [done..|];
           intros Heq; apply Hnot; rewrite Heq; by left).
    destruct (handleCompletion_open "generate_embeddings" None steps k p)
      as (p1 & Hp1 & Hc1 & Hid1); [done..| |].
    { intros Heq. apply Hnot. rewrite Heq. by left. }
    destruct (activateStep_open "umap_hdbscan" _ k p1 Hp1 Hc1)
      as (p2 & ? & ? & ?).
    exists p2. split_and!; [done..|congruence].
  - destruct (_ && _); [|eauto].
    apply handleCompletion_open; [done..|].
    intros Heq. apply Hnot. rewrite Heq. by left.
  - destruct (handleCompletion_open "umap_hdbscan" None steps k p)
      as (p1 & Hp1 & Hc1 & Hid1); [done..| |].
    { intros Heq. apply Hnot. rewrite Heq. by left. }
    destruct (handleCompletion_open "clustering_result" (Some data)
                (handleCompletion "umap_hdbscan" None steps) k p1)
      as (p2 & ? & ? & ?); [done..| |].
    { rewrite Hid1. intros Heq. apply Hnot. rewrite Heq. right. by left. }
    exists p2. split_and!; [done..|congruence].
  - by apply activateStep_open.
  - destruct (handleCompletion_open "ncbi_verification" None steps k p)
      as (p1 & Hp1 & Hc1 & Hid1); [done..| |].
    { intros Heq. apply Hnot. rewrite Heq. by left. }
    destruct (handleCompletion_open "analysis_complete" None
                (handleCompletion "ncbi_verification" None steps) k p1)
      as (p2 & ? & ? & ?); [done..| |].
    { rewrite Hid1. intros Heq. apply Hnot. rewrite Heq. right. by left. }
    exists p2. split_and!; [done..|congruence].
Qed.

(** A record completes each of its targets that names a step. *)
Lemma handleCompletion_completes_ids stepId rd steps k :
  id <$> steps = id <$> INITIAL_PIPELINE ->
  findIndexById stepId INITIAL_PIPELINE = Some k ->
  exists p, handleCompletion stepId rd steps !! k = Some p /\
            status p = complete.
Proof.
  intros Hids Hk. apply handleCompletion_completes.
  by rewrite (findIndexById_ids _ _ _ Hids).
Qed.

Lemma updateSteps_completes_targets e steps stepId k :
  id <$> steps = id <$> INITIAL_PIPELINE ->
  findIndexById stepId INITIAL_PIPELINE = Some k ->
  stepId ∈ completionTargets e ->
  exists p, updateSteps e steps !! k = Some p /\ status p = complete.
Proof.
  intros Hids Hk Hin.
  assert (Hone : forall a rd, stepId ∈ [a] ->
            exists p, handleCompletion a rd steps !! k = Some p /\
                      status p = complete).
  { intros a rd Ha. apply list_elem_of_singleton in Ha as <-.
    by apply handleCompletion_completes_ids. }
  assert (Htwo : forall a b rd rd', stepId ∈ [a; b] ->
            exists p, handleCompletion b rd'
                        (handleCompletion a rd steps) !! k = Some p /\
                      status p = complete).
  { intros a b rd rd' Hab.
    apply elem_of_cons in Hab as [<-|Hb];
      [|apply list_elem_of_singleton in Hb as <-].
    - destruct (handleCompletion_completes_ids stepId rd steps k Hids Hk)
        as (p & Hp & Hpc).
      exists p. split; [|done].
      eapply complete_kept; [apply handleCompletion_advances|done..].
    - apply handleCompletion_completes_ids; [|done].
      by rewrite handleCompletion_ids. }
  destruct e as [msg|step st|data|data| | |]; simpl in *;
    try (by apply elem_of_nil in Hin); auto.
  - unfold handleLogMessage.
    repeat match goal with
           | _ : context [if ?b then _ else _] |- _ => destruct b
           end;
      try (by apply elem_of_nil in Hin); auto.
    destruct (Hone _ None Hin) as (p & Hp & Hpc).
    exists p. split; [|done].
    eapply complete_kept; [apply activateStep_advances|done..].
  - destruct (_ && _); [auto|by apply elem_of_nil in Hin].
Qed.

Lemma stepId_index stepId :
  stepId ∈ (id <$> INITIAL_PIPELINE) ->
  exists k, findIndexById stepId INITIAL_PIPELINE = Some k.
Proof.
  intros Hin. apply list_elem_of_fmap in Hin as (s & -> & Hs).
  destruct (list_find_elem_of (fun x => id x = id s) INITIAL_PIPELINE s Hs
              eq_refl) as [[k x] Hf].
  exists k. unfold findIndexById. by rewrite Hf.
Qed.

Lemma deriveSteps_complete_cause log k s :
  deriveSteps log !! k = Some s -> status s = complete ->
  exists e, e ∈ log /\ id s ∈ completionTargets e.
Proof.
  revert s. induction log as [|e log IH] using rev_ind; intros s Hs Hc.
  - do 6 (destruct k as [|k]; [simpl in Hs; by simplify_eq|]). done.
  - rewrite deriveSteps_snoc in Hs.
    destruct (Forall2_lookup_r _ _ _ _ _
                (updateSteps_advances e (deriveSteps log)) Hs)
      as (p & Hp & Hadv).
    destruct (decide (status p = complete)) as [Hpc|Hpc].
    + rewrite (adv_complete _ _ Hadv Hpc) in *.
      destruct (IH p Hp Hpc) as (e' & He' & Hin).
      exists e'. split; [|done]. apply elem_of_app. by left.
    + destruct (decide (id p ∈ completionTargets e)) as [Hin|Hnot].
      * exists e. rewrite (adv_id _ _ Hadv). split; [|done].
        apply elem_of_app. right. by apply list_elem_of_singleton.
      * destruct (updateSteps_open e _ k p Hp Hpc Hnot) as (p' & Hp' & Hc' & _).
        congruence.
Qed.

End Completion.

(** X4 (completion has a cause): a step is complete in the derived array
    exactly when it is one of the six steps and the log holds a record
    that hands its identifier to [handleCompletion]. *)
Theorem complete_iff_completed (log : list AnalysisLog) (stepId : string) :
  statusOf stepId (deriveSteps log) = Some complete <->
  stepId ∈ (id <$> INITIAL_PIPELINE) /\
  exists e, e ∈ log /\ stepId ∈ completionTargets e.
Proof.
  split.
  - intros Hst. unfold statusOf in Hst.
    apply fmap_Some in Hst as (s & Hg & Hc).
    assert (Hid : id s = stepId).
    { unfold getStep in Hg. apply fmap_Some in Hg as ([i x] & Hf & ->).
      by apply list_find_Some in Hf as (_ & ? & _). }
    rewrite getStep_deriveSteps in Hg.
    destruct (findIndexById stepId INITIAL_PIPELINE) as [k|] eqn:Hk; [|done].
    split.
    + destruct (findIndexById_Some _ _ _ Hk) as (s0 & Hs0 & <-).
      apply list_elem_of_fmap. exists s0. split; [done|].
      by eapply list_elem_of_lookup_2.
    + rewrite <- Hid. by eapply deriveSteps_complete_cause.
  - intros (Hin & e & He & Ht).
    destruct (stepId_index _ Hin) as (k & Hk).
    apply list_elem_of_split in He as (l1 & l2 & ->).
    destruct (updateSteps_completes_targets e (deriveSteps l1) stepId k
                (deriveSteps_ids l1) Hk Ht) as (p & Hp & Hpc).
    rewrite (statusOf_deriveSteps _ _ k Hk).
    rewrite (complete_kept _ _ _ _ (deriveSteps_after l1 e l2) Hp Hpc).
    simpl. by rewrite Hpc.
Qed.

(** X5 (shape of the derived array): whatever the log, the array holds
    the six steps of the initial pipeline, with their identifiers and
    labels, in the same order. *)
Theorem deriveSteps_shape (log : list AnalysisLog) :
  (fun s => (id s, label s)) <$> deriveSteps log =
  (fun s => (id s, label s)) <$> INITIAL_PIPELINE.
Proof.
  assert (Hadv := deriveSteps_advances [] log). simpl in Hadv.
  change (deriveSteps []) with INITIAL_PIPELINE in Hadv.
  induction Hadv as [|s s' l l' Hs _ IH]; [done|].
  csimpl. by rewrite IH, (adv_id _ _ Hs), (adv_label _ _ Hs).
Qed.

Section Effects.

Lemma runEffects_lastVerificationUpdate incoming seen st :
  lastVerificationUpdate (runEffects seen incoming st) =
  match last (List.filter isVerificationUpdate incoming) with
  | Some v => Some v
  | None => lastVerificationUpdate st
  end.
Proof.
  revert seen st. induction incoming as [|e rest IH]; intros seen st; simpl.
  - done.
  - rewrite IH. unfold onLogsChange. rewrite last_snoc. simpl.
    destruct e; simpl; try done.
    destruct (List.filter isVerificationUpdate rest) as [|x l] eqn:Hf.
    + reflexivity.
    + rewrite last_cons_cons.
      destruct (last (x :: l)) eqn:Hl; [done|]. by apply last_None in Hl.
Qed.

End Effects.

(** X6 (the effect computes the fold): when the component sees the log
    grow from empty, one record per update, its state after the last
    update holds the fold of the updater over the log and the last
    [verification_update] record, whatever it held before. *)
Theorem runEffects_state (log : list AnalysisLog) (st : DisplayState) :
  runEffects [] log (onLogsChange [] st) =
  mkDisplay (deriveSteps log)
            (last (List.filter isVerificationUpdate log)).
Proof.
  assert (H1 := runEffects_pipelineSteps log [] (onLogsChange [] st)).
  assert (H2 := runEffects_lastVerificationUpdate log [] (onLogsChange [] st)).
  destruct (runEffects [] log (onLogsChange [] st)) as [ps lv].
  simpl in *. subst. f_equal.
  by destruct (last (List.filter isVerificationUpdate log)).
Qed.

Section Banner.

Implicit Types (logs : list AnalysisLog).

Lemma find_isError_app logs more :
  find isError (logs ++ more) =
  match find isError logs with
  | Some e => Some e
  | None => find isError more
  end.
Proof.
  induction logs as [|e logs IH]; simpl; [done|].
  by destruct (isError e).
Qed.

Lemma find_isError_None logs :
  find isError logs = None <-> Forall (fun e => isError e = false) logs.
Proof.
  induction logs as [|e logs IH]; simpl.
  - split; [constructor|done].
  - destruct (isError e) eqn:He.
    + split; [done|]. intros H. apply Forall_cons in H as [? _]. congruence.
    + rewrite IH. split; [by constructor|]. by intros [_ ?]%Forall_cons.
Qed.

End Banner.

Section BannerText.

Lemma errorBanner_first (before after : list AnalysisLog) (message : string) :
  Forall (fun e => isError e = false) before ->
  errorBanner (before ++ Error message :: after) =
    Some (if JsString.truthy message then message else "An error occurred").
Proof.
  intros Hb. apply find_isError_None in Hb.
  unfold errorBanner. by rewrite find_isError_app, Hb.
Qed.

Lemma errorBanner_None (logs : list AnalysisLog) :
  errorBanner logs = None <-> Forall (fun e => isError e = false) logs.
Proof.
  rewrite <- find_isError_None. unfold errorBanner.
  destruct (find isError logs) as [e|] eqn:Hf; [|done].
  split; [|done].
  apply find_some in Hf as [_ He]. by destruct e.
Qed.

End BannerText.

(** X7 (when the component shows an error): the component shows the raw
    payload, and no banner whatever errors the log holds, exactly when the
    first record is a [json_result]; otherwise it shows the steps, with a
    banner exactly when the log holds an [error] record, and the banner
    carries the message of the first such record (the default text when
    that message is empty). *)
Theorem LogDisplay_banner (logs : list AnalysisLog) :
  match LogDisplay logs with
  | RawJson jsonData => head logs = Some (JsonResult jsonData)
  | Pipeline banner _ =>
      (forall jsonData, head logs <> Some (JsonResult jsonData)) /\
      (banner = None <-> Forall (fun e => isError e = false) logs) /\
      (forall before message after,
         logs = before ++ Error message :: after ->
         Forall (fun e => isError e = false) before ->
         banner = Some (if JsString.truthy message then message
                        else "An error occurred"))
  end.
Proof.
  assert (Hpipe :
    (forall jsonData, head logs <> Some (JsonResult jsonData)) ->
    (errorBanner logs = None <-> Forall (fun e => isError e = false) logs) /\
    (forall before message after,
       logs = before ++ Error message :: after ->
       Forall (fun e => isError e = false) before ->
       errorBanner logs = Some (if JsString.truthy message then message
                                else "An error occurred"))).
  { intros _. split; [apply errorBanner_None|].
    intros before message after -> Hb. by apply errorBanner_first. }
  destruct logs as [|e rest]; [by split; [|apply Hpipe]|].
  destruct e; simpl; try done; (split; [done|by apply Hpipe]).
Qed.

(** X9 (expanding a card): [toggleLog] flips the membership of the
    identifier it is given, leaves every other identifier as it is, and
    applied twice gives the set back. *)
Theorem toggleLog_flip (stepId : string) (expandedLogs : gset string) :
  (stepId ∈ toggleLog stepId expandedLogs <-> stepId ∉ expandedLogs) /\
  (forall other, other <> stepId ->
     (other ∈ toggleLog stepId expandedLogs <-> other ∈ expandedLogs)) /\
  toggleLog stepId (toggleLog stepId expandedLogs) = expandedLogs.
Proof.
  unfold toggleLog. split_and!.
  - destruct (decide (stepId ∈ expandedLogs)) as [Hin|Hin].
    + rewrite elem_of_difference, elem_of_singleton. intuition congruence.
    + rewrite elem_of_union, elem_of_singleton. intuition congruence.
  - intros other Hne. destruct (decide (stepId ∈ expandedLogs)) as [Hin|Hin].
    + rewrite elem_of_difference, elem_of_singleton. intuition congruence.
    + rewrite elem_of_union, elem_of_singleton. intuition congruence.
  - destruct (decide (stepId ∈ expandedLogs)) as [Hin|Hin].
    + rewrite decide_False
        by (rewrite elem_of_difference, elem_of_singleton; intuition congruence).
      apply set_eq. intros x.
      rewrite elem_of_union, elem_of_difference, elem_of_singleton.
      destruct (decide (x = stepId)); intuition congruence.
    + rewrite decide_True
        by (rewrite elem_of_union, elem_of_singleton; intuition congruence).
      apply set_eq. intros x.
      rewrite elem_of_difference, elem_of_union, elem_of_singleton.
      destruct (decide (x = stepId)); intuition congruence.
Qed.

Section Ignored.

Lemma deriveSteps_cons_fold log steps :
  fold_left (fun steps e => updateSteps e steps) log steps =
  fold_left (fun steps e => updateSteps e steps)
    (List.filter (fun e => negb (isError e || isJsonResult e)) log) steps.
Proof.
  revert steps. induction log as [|e log IH]; intros steps; simpl; [done|].
  destruct e; simpl; by rewrite IH.
Qed.

End Ignored.

(** X10 (records the steps never see): dropping the [error] and
    [json_result] records from a log does not change the derived array;
    so a [json_result] record that is not the first record shows the
    steps as if it were absent. *)
Theorem deriveSteps_ignores (log : list AnalysisLog) :
  deriveSteps log =
  deriveSteps (List.filter (fun e => negb (isError e || isJsonResult e)) log).
Proof. apply deriveSteps_cons_fold. Qed.

(** ** Further properties of the registry *)

Section RegistryMore.

Context {ProgressStep VerificationUpdate AnalysisResult : Type}.

Implicit Types
  (s : Store.Sample ProgressStep VerificationUpdate AnalysisResult)
  (state : Store.AppState ProgressStep VerificationUpdate AnalysisResult)
  (m : Store.Mutation ProgressStep VerificationUpdate AnalysisResult)
  (c : Store.Call ProgressStep VerificationUpdate AnalysisResult).

Lemma getSample_Some fid state s :
  Store.getSample fid state = Some s <->
  exists i, Store.samples state !! i = Some s /\ Store.fileId s = fid /\
            forall j s', Store.samples state !! j = Some s' -> j < i ->
                         Store.fileId s' <> fid.
Proof.
  unfold Store.getSample. split.
  - intros ([i x] & Hf & ->)%fmap_Some.
    apply list_find_Some in Hf. eauto.
  - intros (i & H). apply fmap_Some. exists (i, s). split; [|done].
    by apply list_find_Some.
Qed.

Lemma getSample_None fid state :
  Store.getSample fid state = None <->
  forall s, s ∈ Store.samples state -> Store.fileId s <> fid.
Proof.
  unfold Store.getSample. rewrite fmap_None, list_find_None, Forall_forall.
  done.
Qed.

(** The per-sample effect of a mutation. *)
Lemma mutate_fmap fid m state :
  exists f, Store.mutate fid m state = Store.mapMatching fid f state /\
            forall s, Store.fileId (f s) = Store.fileId s.
Proof. destruct m; eexists; (split; [reflexivity|done]). Qed.

Lemma getSample_mapMatching fid' fid f state :
  (forall s, Store.fileId (f s) = Store.fileId s) ->
  Store.getSample fid' (Store.mapMatching fid f state) =
  (fun s => if decide (Store.fileId s = fid) then f s else s)
    <$> Store.getSample fid' state.
Proof.
  intros Hf. unfold Store.getSample, Store.mapMatching. simpl.
  rewrite list_find_fmap.
  erewrite (list_find_ext _ (fun s => Store.fileId s = fid')).
  - by destruct (list_find _ (Store.samples state)) as [[??]|].
  - intros s. simpl. case_decide; [by rewrite Hf|done].
Qed.

End RegistryMore.

(** X12 (create, then look up): after [addSample], [getSample] returns
    what it returned before for an id that was present, the new sample for
    its own id when that id was absent, and nothing for any other absent
    id. *)
Theorem getSample_after_addSample
    {ProgressStep VerificationUpdate AnalysisResult : Type}
    (fid : string)
    (sample : Store.Sample ProgressStep VerificationUpdate AnalysisResult)
    (state : Store.AppState ProgressStep VerificationUpdate AnalysisResult) :
  Store.getSample fid (Store.addSample sample state) =
  match Store.getSample fid state with
  | Some s => Some s
  | None => if decide (Store.fileId sample = fid) then Some sample else None
  end.
Proof.
  destruct (Store.getSample fid state) as [s|] eqn:Hg.
  - rewrite getSample_addSample; [done|]. by rewrite Hg.
  - unfold Store.getSample, Store.addSample in *. simpl.
    apply fmap_None in Hg.
    case_decide as Hid.
    + apply fmap_Some. exists (length (Store.samples state), sample).
      split; [|done]. apply list_find_app_Some. right.
      split_and!; [lia|done|]. rewrite Nat.sub_diag. simpl.
      by rewrite decide_True.
    + apply fmap_None. apply list_find_app_None. split; [done|].
      simpl. by rewrite decide_False.
Qed.

(** X13 (mutate, then look up): a keyed mutation changes what [getSample]
    returns for its own file id only, and there it returns the earlier
    result with the targeted field updated; an id that was absent stays
    absent. *)
Theorem getSample_after_mutate
    {ProgressStep VerificationUpdate AnalysisResult : Type}
    (fid fid' : string)
    (m : Store.Mutation ProgressStep VerificationUpdate AnalysisResult)
    (state : Store.AppState ProgressStep VerificationUpdate AnalysisResult) :
  (fid' <> fid ->
     Store.getSample fid' (Store.mutate fid m state) =
     Store.getSample fid' state) /\
  (forall s, Store.getSample fid state = Some s ->
     exists s', Store.getSample fid (Store.mutate fid m state) = Some s' /\
                Store.agreeOutside (Store.target m) s s' /\
                Store.updated m s s') /\
  (Store.getSample fid state = None ->
     Store.getSample fid (Store.mutate fid m state) = None).
Proof.
  destruct (mutate_fmap fid m state) as (f & Hm & Hf).
  split_and!.
  - intros Hne. rewrite Hm, getSample_mapMatching by done.
    destruct (Store.getSample fid' state) as [s|] eqn:Hg; [|done].
    simpl. apply getSample_Some in Hg as (i & _ & Hid & _).
    rewrite decide_False by congruence. done.
  - intros s Hg.
    assert (Hg' := Hg). apply getSample_Some in Hg' as (i & Hi & Hid & _).
    destruct (mutate_lookup fid m state i s Hi) as (s' & Hs' & _ & Hup).
    exists s'. split; [|by apply Hup].
    rewrite Hm, getSample_mapMatching, Hg by done. simpl.
    rewrite Hm, mapMatching_lookup, Hi in Hs'. simpl in Hs'.
    congruence.
  - intros Hg. by rewrite Hm, getSample_mapMatching, Hg.
Qed.

Lemma getSample_after_mutate_witness :
  exists s',
    Store.getSample "f1"
      (Store.mutate "f1" (Store.AddLog "Found 10 sequences")
         (Store.mkState [Store.uploaded "f1" "a.fasta" Store.running;
                         Store.uploaded "f2" "b.fasta" Store.running]))
      = Some s' /\
    Store.logs s' = ["Found 10 sequences"].
Proof.
  destruct (proj1 (proj2 (getSample_after_mutate "f1" "f1"
              (Store.AddLog "Found 10 sequences")
              (Store.mkState [Store.uploaded "f1" "a.fasta" Store.running;
                              Store.uploaded "f2" "b.fasta" Store.running])))
              (Store.uploaded "f1" "a.fasta" Store.running) eq_refl)
    as (s' & Hs' & _ & Hup).
  exists s'. split; [exact Hs'|exact Hup].
Defined.

Section RegistryCompose.

Context {ProgressStep VerificationUpdate AnalysisResult : Type}.

Implicit Types
  (s : Store.Sample ProgressStep VerificationUpdate AnalysisResult)
  (state : Store.AppState ProgressStep VerificationUpdate AnalysisResult)
  (m : Store.Mutation ProgressStep VerificationUpdate AnalysisResult)
  (c : Store.Call ProgressStep VerificationUpdate AnalysisResult).

Lemma mapMatching_compose fid1 fid2 f g state :
  Store.mapMatching fid1 f (Store.mapMatching fid2 g state) =
  Store.mkState
    ((fun s =>
        let s2 := if decide (Store.fileId s = fid2) then g s else s in
        if decide (Store.fileId s2 = fid1) then f s2 else s2)
       <$> Store.samples state).
Proof.
  unfold Store.mapMatching. simpl. f_equal.
  rewrite <- list_fmap_compose. done.
Qed.

Lemma agreeOutside_refl f s : Store.agreeOutside f s s.
Proof. by constructor. Qed.

Lemma agreeOutside_trans f s1 s2 s3 :
  Store.agreeOutside f s1 s2 -> Store.agreeOutside f s2 s3 ->
  Store.agreeOutside f s1 s3.
Proof.
  intros [a1 a2 a3 a4 a5 a6 a7 a8 a9] [b1 b2 b3 b4 b5 b6 b7 b8 b9].
  constructor; intros;
    first [ by rewrite b1 | by rewrite b2 | by rewrite b3 | by rewrite b4
          | by rewrite b5, a5 | by rewrite b6, a6 | by rewrite b7, a7
          | by rewrite b8, a8 | by rewrite b9, a9 ].
Qed.

Lemma perform_fileIds c state :
  Store.fileId <$> Store.samples (Store.perform c state) =
  (Store.fileId <$> Store.samples state) ++ createdIds [c].
Proof.
  destruct c as [sample|fid m]; simpl.
  - by rewrite fmap_app.
  - rewrite app_nil_r.
    destruct (mutate_fmap fid m state) as (f & -> & Hf).
    unfold Store.mapMatching. simpl. rewrite <- list_fmap_compose.
    apply list_fmap_ext. intros i s _. simpl. by case_decide.
Qed.

Lemma getSample_after_addSample_fresh fid sample state :
  Store.fileId sample = fid ->
  Store.getSample fid state = None ->
  Store.getSample fid (Store.addSample sample state) = Some sample.
Proof.
  intros Hid Hg. unfold Store.getSample, Store.addSample in *. simpl.
  apply fmap_None in Hg.
  apply fmap_Some. exists (length (Store.samples state), sample).
  split; [|done]. apply list_find_app_Some. right.
  split_and!; [lia|done|]. rewrite Nat.sub_diag. simpl.
  by rewrite decide_True.
Qed.

End RegistryCompose.

(** X14 (independent mutations commute): two keyed mutations give the same
    state in either order when they name different file ids or write
    different fields. *)
Theorem mutate_commute
    {ProgressStep VerificationUpdate AnalysisResult : Type}
    (fid1 fid2 : string)
    (m1 m2 : Store.Mutation ProgressStep VerificationUpdate AnalysisResult)
    (state : Store.AppState ProgressStep VerificationUpdate AnalysisResult) :
  fid1 <> fid2 \/ Store.target m1 <> Store.target m2 ->
  Store.mutate fid1 m1 (Store.mutate fid2 m2 state) =
  Store.mutate fid2 m2 (Store.mutate fid1 m1 state).
Proof.
  intros Hor.
  destruct m1, m2; simpl in *;
    unfold Store.updateSampleStatus, Store.addSampleLog,
      Store.updateSampleProgress, Store.setSampleAnalysisResult,
      Store.addSampleVerificationUpdate;
    rewrite !mapMatching_compose; f_equal;
    apply list_fmap_ext; intros i s _; simpl;
    repeat (case_decide; simpl in * ); try done;
    destruct Hor; congruence.
Qed.

Lemma mutate_commute_witness :
  Store.mutate "f1" (Store.SetStatus Store.running)
    (Store.mutate "f1" (Store.AddLog "Found 10 sequences")
       (Store.mkState [Store.uploaded "f1" "a.fasta" Store.uploading]))
  = Store.mutate "f1" (Store.AddLog "Found 10 sequences")
      (Store.mutate "f1" (Store.SetStatus Store.running)
         (Store.mkState [Store.uploaded "f1" "a.fasta" Store.uploading])).
Proof.
  apply (mutate_commute "f1" "f1" (Store.SetStatus Store.running)
           (Store.AddLog "Found 10 sequences")
           (Store.mkState [Store.uploaded "f1" "a.fasta" Store.uploading])).
  right. simpl. discriminate.
Defined.

(** X15 (log lines accumulate in call order): after [addSampleLog] has
    been called for one file id with the lines of a list, in order, every
    sample with that id has its earlier lines followed by those lines, and
    nothing else in any sample has changed. *)
Theorem addSampleLog_accumulates
    {ProgressStep VerificationUpdate AnalysisResult : Type}
    (fid : string) (lines : list string)
    (state : Store.AppState ProgressStep VerificationUpdate AnalysisResult)
    (i : nat)
    (s : Store.Sample ProgressStep VerificationUpdate AnalysisResult) :
  Store.samples state !! i = Some s ->
  exists s',
    Store.samples
      (Store.performAll
         ((fun line => Store.Mutate fid (Store.AddLog line)) <$> lines)
         state) !! i = Some s' /\
    Store.agreeOutside Store.FLogs s s' /\
    Store.logs s' =
      if decide (Store.fileId s = fid) then Store.logs s ++ lines
      else Store.logs s.
Proof.
  revert state s. induction lines as [|line lines IH]; intros state s Hs.
  - exists s. split; [done|]. split; [apply agreeOutside_refl|].
    case_decide; [by rewrite app_nil_r|done].
  - csimpl. unfold Store.performAll. simpl.
    destruct (mutate_lookup fid (Store.AddLog line) state i s Hs)
      as (s1 & Hs1 & Hne & Heq).
    destruct (IH _ _ Hs1) as (s' & Hs' & Hag & Hlogs).
    exists s'. split; [exact Hs'|].
    destruct (decide (Store.fileId s = fid)) as [Hid|Hid].
    + destruct (Heq Hid) as [Hag1 Hup]. simpl in Hup.
      split; [by eapply agreeOutside_trans|].
      rewrite Hlogs, decide_True
        by (by rewrite (Store.agree_fileId _ _ _ _ _ _ Hag1)).
      by rewrite Hup, <- app_assoc.
    + rewrite (Hne Hid) in *. split; [done|].
      by rewrite Hlogs, decide_False.
Qed.

Lemma addSampleLog_accumulates_witness :
  exists s',
    Store.samples
      (Store.performAll
         ((fun line => Store.Mutate "f1" (Store.AddLog line))
            <$> ["Reading sequences"; "Found 10 sequences"])
         (Store.mkState [Store.uploaded "f1" "a.fasta" Store.running]))
      !! 0 = Some s' /\
    Store.logs s' = ["Reading sequences"; "Found 10 sequences"].
Proof.
  destruct (addSampleLog_accumulates "f1"
              ["Reading sequences"; "Found 10 sequences"]
              (Store.mkState [Store.uploaded "f1" "a.fasta" Store.running])
              0 (Store.uploaded "f1" "a.fasta" Store.running) eq_refl)
    as (s' & Hs' & _ & Hlogs).
  exists s'. split; [exact Hs'|exact Hlogs].
Defined.

(** X16 (the last write wins): of two [updateSampleStatus] calls for the
    same file id, and of two [setSampleAnalysisResult] calls, only the
    second one shows in the state. *)
Theorem overwrite_last_wins
    {ProgressStep VerificationUpdate AnalysisResult : Type}
    (fid : string) (st1 st2 : Store.SampleStatus)
    (r1 r2 : AnalysisResult)
    (state : Store.AppState ProgressStep VerificationUpdate AnalysisResult) :
  Store.updateSampleStatus fid st2 (Store.updateSampleStatus fid st1 state) =
    Store.updateSampleStatus fid st2 state /\
  Store.setSampleAnalysisResult fid r2
      (Store.setSampleAnalysisResult fid r1 state) =
    Store.setSampleAnalysisResult fid r2 state.
Proof.
  unfold Store.updateSampleStatus, Store.setSampleAnalysisResult.
  rewrite !mapMatching_compose. unfold Store.mapMatching.
  split; f_equal; apply list_fmap_ext; intros i s _; simpl;
    repeat (case_decide; simpl in * ); done.
Qed.

(** X17 (records are never removed or re-keyed): after any sequence of
    registry calls the file ids in the store are the earlier ones, in the
    same order, followed by the ids of the created samples in call
    order. *)
Theorem performAll_fileIds
    {ProgressStep VerificationUpdate AnalysisResult : Type}
    (cs : list (Store.Call ProgressStep VerificationUpdate AnalysisResult))
    (state : Store.AppState ProgressStep VerificationUpdate AnalysisResult) :
  Store.fileId <$> Store.samples (Store.performAll cs state) =
  (Store.fileId <$> Store.samples state) ++ createdIds cs.
Proof.
  revert state. induction cs as [|c cs IH]; intros state.
  - by rewrite app_nil_r.
  - unfold Store.performAll in *. simpl. rewrite IH, perform_fileIds.
    rewrite <- app_assoc. f_equal.
    unfold createdIds. simpl. by destruct c.
Qed.

(** ** The analysis context *)

Section ProviderFacts.

Context {TaxaData Date : Type}.

Implicit Types
  (prev : AnalysisContext.AnalysisData TaxaData Date)
  (data : AnalysisContext.PartialData TaxaData Date).

Lemma default_merge {A : Type} (x : A) (o1 o2 : option A) :
  default (default x o1) o2 = default x (from_option Some o1 o2).
Proof. by destruct o1, o2. Qed.

Lemma addAllRecent_snoc adds a now prev :
  AnalysisContext.addAllRecent (adds ++ [(a, now)]) prev =
  AnalysisContext.addRecentAnalysis a now
    (AnalysisContext.addAllRecent adds prev).
Proof. unfold AnalysisContext.addAllRecent. by rewrite fold_left_app. Qed.

End ProviderFacts.

(** X18 (the three most recent analyses): after one or more
    [addRecentAnalysis] calls the list holds the added analyses, newest
    first, followed by the earlier entries, cut to three; the clock of the
    last call is the [lastUpdated] value. *)
Theorem addRecentAnalysis_keeps_three {TaxaData Date : Type}
    (adds : list (AnalysisContext.RecentAnalysis * Date))
    (a : AnalysisContext.RecentAnalysis) (now : Date)
    (prev : AnalysisContext.AnalysisData TaxaData Date) :
  let after := AnalysisContext.addAllRecent (adds ++ [(a, now)]) prev in
  AnalysisContext.recentAnalyses after =
    take 3 (a :: reverse (fst <$> adds)
              ++ AnalysisContext.recentAnalyses prev) /\
  length (AnalysisContext.recentAnalyses after) <= 3 /\
  AnalysisContext.lastUpdated after = Some now.
Proof.
  simpl. split_and!.
  - revert a now. induction adds as [|[b t] adds IH] using rev_ind;
      intros a now.
    + done.
    + rewrite addAllRecent_snoc. simpl.
      rewrite IH. rewrite fmap_app.
      change (fst <$> [(b, t)]) with [b]. rewrite reverse_snoc. simpl.
      destruct (reverse (fst <$> adds) ++ AnalysisContext.recentAnalyses prev)
        as [|x [|y l]]; done.
  - rewrite addAllRecent_snoc. simpl. rewrite length_take. lia.
  - by rewrite addAllRecent_snoc.
Qed.

(** X19 (partial updates compose): two [updateAnalysisData] calls amount
    to one call with the merged keys, the later ones winning, and the
    later clock; [addTaxaData] is the update of the one key
    [taxaAbundance]; a [lastUpdated] key in the data never shows. *)
Theorem updateAnalysisData_compose {TaxaData Date : Type}
    (d1 d2 : AnalysisContext.PartialData TaxaData Date) (t1 t2 : Date)
    (taxa : list TaxaData)
    (prev : AnalysisContext.AnalysisData TaxaData Date) :
  AnalysisContext.updateAnalysisData d2 t2
    (AnalysisContext.updateAnalysisData d1 t1 prev) =
  AnalysisContext.updateAnalysisData (AnalysisContext.mergePartial d1 d2)
    t2 prev /\
  AnalysisContext.addTaxaData taxa t1 prev =
  AnalysisContext.updateAnalysisData
    (AnalysisContext.mkPartial None None None None (Some taxa) None None)
    t1 prev /\
  AnalysisContext.lastUpdated
    (AnalysisContext.updateAnalysisData d1 t1 prev) = Some t1.
Proof.
  split_and!; [|done..].
  unfold AnalysisContext.updateAnalysisData, AnalysisContext.mergePartial.
  simpl. by rewrite !default_merge.
Qed.

(** ** The upload handler *)

(** X20 (what an upload leaves behind): [handleUpload] never removes or
    changes a stored sample; it creates a record only when a file was
    picked and the upload succeeded, and then [getSample] finds the new
    record, in status uploading and with no log lines, under the server's
    file id if that id was free; on every path that started an upload the
    [uploading] flag is back to false. *)
Theorem handleUpload_outcome
    {ProgressStep VerificationUpdate AnalysisResult : Type}
    (pick : SamplesScreen.PickResult) (upload : SamplesScreen.UploadResult)
    (now : string)
    (scr : SamplesScreen.Screen ProgressStep VerificationUpdate AnalysisResult) :
  let scr' := SamplesScreen.handleUpload pick upload now scr in
  Store.samples (SamplesScreen.store scr)
    `prefix_of` Store.samples (SamplesScreen.store scr') /\
  (pick <> SamplesScreen.Canceled -> SamplesScreen.uploading scr' = false) /\
  (forall fileName file_id sample_id,
     pick = SamplesScreen.Picked fileName ->
     upload = SamplesScreen.Uploaded file_id sample_id ->
     Store.getSample file_id (SamplesScreen.store scr) = None ->
     Store.getSample file_id (SamplesScreen.store scr') =
       Some (SamplesScreen.newSample file_id sample_id fileName now) /\
     SamplesScreen.route scr' = Some ("/sample/" +:+ file_id)) /\
  ((forall fileName, pick <> SamplesScreen.Picked fileName) \/
   upload = SamplesScreen.UploadFailed ->
   SamplesScreen.store scr' = SamplesScreen.store scr /\
   SamplesScreen.route scr' = SamplesScreen.route scr).
Proof.
  simpl. split_and!.
  - destruct pick as [| |fileName]; simpl; try done.
    destruct upload; simpl; [done|]. by apply prefix_app_r.
  - intros Hp. destruct pick as [| |fileName]; simpl; try done.
    by destruct upload.
  - intros fileName file_id sample_id -> -> Hfree. simpl. split; [|done].
    rewrite getSample_after_addSample_fresh; [done|done|done].
  - intros [Hp| ->].
    + destruct pick as [| |fileName]; simpl; try done.
      by destruct (Hp fileName).
    + by destruct pick.
Qed.

Lemma handleUpload_outcome_witness :
  Store.getSample "f9"
    (SamplesScreen.store
       (SamplesScreen.handleUpload (SamplesScreen.Picked "reads.fasta")
          (SamplesScreen.Uploaded "f9" "s9") "2025-01-01T00:00:00.000Z"
          (SamplesScreen.mkScreen
             (Store.mkState [Store.uploaded "f1" "a.fasta" Store.running])
             false false None)))
  = Some (@SamplesScreen.newSample Json Json Json "f9" "s9" "reads.fasta"
            "2025-01-01T00:00:00.000Z").
Proof.
  apply (proj1 (proj2 (proj2
    (handleUpload_outcome (SamplesScreen.Picked "reads.fasta")
       (SamplesScreen.Uploaded "f9" "s9") "2025-01-01T00:00:00.000Z"
       (SamplesScreen.mkScreen
          (Store.mkState [Store.uploaded "f1" "a.fasta" Store.running])
          false false None))))
    "reads.fasta" "f9" "s9" eq_refl eq_refl eq_refl).
Defined.

(** ** The cluster analytics *)

Section AnalyticsFacts.

Context {Cluster : Type} (isNovel : Cluster -> bool).

Lemma countClusters_fold (clusters : list Cluster) (n k : nat) :
  fold_left (fun '(novelCount, knownCount) c =>
               if isNovel c then (S novelCount, knownCount)
               else (novelCount, S knownCount))
            clusters (n, k) =
  (n + length (List.filter isNovel clusters),
   k + length (List.filter (fun c => negb (isNovel c)) clusters)).
Proof.
  revert n k. induction clusters as [|c clusters IH]; intros n k; simpl.
  - f_equal; lia.
  - destruct (isNovel c); simpl; rewrite IH; f_equal; lia.
Qed.

Lemma filter_partition_length (clusters : list Cluster) :
  length (List.filter isNovel clusters) +
  length (List.filter (fun c => negb (isNovel c)) clusters) =
  length clusters.
Proof.
  induction clusters as [|c clusters IH]; simpl; [done|].
  destruct (isNovel c); simpl; lia.
Qed.

End AnalyticsFacts.

(** X21 (the two counters split the clusters): [analytics] is [null]
    exactly for an empty cluster list; otherwise the novel count is the
    number of clusters that pass the novelty test, the known count the
    number that do not, and the two add up to the total, which is the
    number of clusters. *)
Theorem analytics_partition {Cluster : Type} (isNovel : Cluster -> bool)
    (clusters : list Cluster) :
  (AnalysisDetail.analytics isNovel clusters = None <-> clusters = []) /\
  (forall a, AnalysisDetail.analytics isNovel clusters = Some a ->
     AnalysisDetail.novelCount a = length (List.filter isNovel clusters) /\
     AnalysisDetail.novelCount a + AnalysisDetail.knownCount a =
       AnalysisDetail.totalClusters a /\
     AnalysisDetail.totalClusters a = length clusters /\
     0 < AnalysisDetail.totalClusters a).
Proof.
  unfold AnalysisDetail.analytics, AnalysisDetail.countClusters.
  rewrite countClusters_fold. simpl.
  assert (Hsum := filter_partition_length isNovel clusters).
  destruct clusters as [|c clusters].
  - split; [done|]. intros a. discriminate.
  - split; [split; discriminate|].
    intros a [= <-]. simpl in *. split_and!; lia.
Qed.

Lemma analytics_partition_witness :
  AnalysisDetail.analytics (fun score : Z => (70 <? score)%Z) [92; 35; 82]%Z
    = Some (AnalysisDetail.mkAnalytics 2 1 3) /\
  AnalysisDetail.novelCount (AnalysisDetail.mkAnalytics 2 1 3) +
  AnalysisDetail.knownCount (AnalysisDetail.mkAnalytics 2 1 3) =
  AnalysisDetail.totalClusters (AnalysisDetail.mkAnalytics 2 1 3).
Proof.
  split; [reflexivity|].
  exact (proj1 (proj2 (proj2 (analytics_partition
           (fun score : Z => (70 <? score)%Z) [92; 35; 82]%Z)
           (AnalysisDetail.mkAnalytics 2 1 3) eq_refl))).
Defined.

(** ** The file check of the training screen *)

Section Strings.

Lemma substring_all (s : string) : String.substring 0 (String.length s) s = s.
Proof. induction s as [|c s IH]; simpl; [done|]. by rewrite IH. Qed.

Lemma append_cons (c : ascii) (s t : string) :
  String c s +:+ t = String c (s +:+ t).
Proof. reflexivity. Qed.

Lemma substring_append (stem suffix : string) :
  String.substring (String.length stem) (String.length suffix)
    (stem +:+ suffix) = suffix.
Proof.
  induction stem as [|c stem IH].
  - apply substring_all.
  - rewrite append_cons. simpl. exact IH.
Qed.

Lemma length_append (s t : string) :
  String.length (s +:+ t) = String.length s + String.length t.
Proof.
  induction s as [|c s IH]; [done|].
  rewrite append_cons. simpl. by rewrite IH.
Qed.

Lemma substring_split (k : nat) (s : string) :
  k <= String.length s ->
  s = String.substring 0 k s +:+
      String.substring k (String.length s - k) s.
Proof.
  revert s. induction k as [|k IH]; intros s Hk.
  - rewrite Nat.sub_0_r, substring_all. by destruct s.
  - destruct s as [|c s]; simpl in *; [lia|].
    rewrite append_cons. f_equal. apply IH. lia.
Qed.

Lemma endsWith_spec (s suffix : string) :
  Training.endsWith s suffix = true <-> exists stem, s = stem +:+ suffix.
Proof.
  unfold Training.endsWith. split.
  - destruct (String.length suffix <=? String.length s)%nat eqn:Hle;
      [|done].
    apply Nat.leb_le in Hle. intros Heq%String.eqb_eq.
    exists (String.substring 0 (String.length s - String.length suffix) s).
    assert (Hsplit := substring_split
              (String.length s - String.length suffix) s ltac:(lia)).
    replace (String.length s - (String.length s - String.length suffix))
      with (String.length suffix) in Hsplit by lia.
    by rewrite Heq in Hsplit.
  - intros [stem ->]. rewrite length_append.
    rewrite (proj2 (Nat.leb_le _ _)) by lia.
    replace (String.length stem + String.length suffix
             - String.length suffix) with (String.length stem) by lia.
    rewrite substring_append. apply String.eqb_refl.
Qed.

Lemma lower_ascii_idempotent (c : ascii) :
  JsString.lower_ascii (JsString.lower_ascii c) = JsString.lower_ascii c.
Proof.
  destruct c as [[] [] [] [] [] [] [] []]; vm_compute; reflexivity.
Qed.

Lemma toLowerCase_idempotent (s : string) :
  JsString.toLowerCase (JsString.toLowerCase s) = JsString.toLowerCase s.
Proof.
  induction s as [|c s IH]; simpl; [done|].
  by rewrite lower_ascii_idempotent, IH.
Qed.

End Strings.

(** X22 (which file names pass): a file name is accepted exactly when its
    lower-cased form ends in [.fasta], [.fastq] or [.csv]; so the letter
    case of the name does not matter, and a bare extension is accepted. *)
Theorem isValidFileType_spec (filename : string) :
  (Training.isValidFileType filename = true <->
   exists stem ext, ext ∈ Training.validExtensions /\
                    JsString.toLowerCase filename = stem +:+ ext) /\
  Training.isValidFileType (JsString.toLowerCase filename) =
    Training.isValidFileType filename.
Proof.
  split.
  - unfold Training.isValidFileType. rewrite existsb_exists. split.
    + intros (ext & Hin & (stem & Hs)%endsWith_spec).
      exists stem, ext. split; [by apply list_elem_of_In|done].
    + intros (stem & ext & Hin & Hs). exists ext.
      split; [by apply list_elem_of_In|]. apply endsWith_spec. eauto.
  - unfold Training.isValidFileType. by rewrite toLowerCase_idempotent.
Qed.

(** ** What the Dashboard view renders for a step *)

(** X23 (the clustering card): over a derived array, [renderPipelineStep]
    returns nothing only for the [clustering_result] step; a clustering
    card shows the payload of a [clustering_result] record of the log; and
    once the step is complete and renders as nothing it renders as
    nothing after every further record. *)
Theorem renderPipelineStep_clustering (log more : list AnalysisLog)
    (i : nat) (s : PipelineStep) :
  deriveSteps log !! i = Some s ->
  (renderPipelineStep s = RenderNothing ->
     id s = "clustering_result" /\ status s = complete /\
     exists s', deriveSteps (log ++ more) !! i = Some s' /\
                renderPipelineStep s' = RenderNothing) /\
  (forall d, renderPipelineStep s = ClusteringCard d ->
     ClusteringResult d ∈ log).
Proof.
  intros Hs. split.
  - unfold renderPipelineStep. intros Hr.
    case_decide as Hc; [|by case_decide].
    destruct Hc as [Hid Hc]. split_and!; [done..|].
    exists s. split; [|unfold renderPipelineStep; by rewrite decide_True].
    eapply complete_kept; [apply deriveSteps_advances|done..].
  - unfold renderPipelineStep. intros d Hr.
    case_decide as Hc; [|by case_decide].
    destruct (resultData s) as [d'|] eqn:Hd; [|done].
    destruct (truthyJson d'); [|done]. simplify_eq.
    by destruct (deriveSteps_payloadsFrom log i s d Hs Hd) as (_ & _ & ?).
Qed.

Lemma renderPipelineStep_clustering_witness :
  exists s',
    deriveSteps ([Progress "clustering_result" "complete"] ++
                 [ClusteringResult (JNum 7); Complete]) !! 3 = Some s' /\
    renderPipelineStep s' = RenderNothing.
Proof.
  destruct (proj1 (renderPipelineStep_clustering
              [Progress "clustering_result" "complete"]
              [ClusteringResult (JNum 7); Complete] 3
              (mkStep "clustering_result" "Clustering Complete" complete None)
              eq_refl) eq_refl) as (_ & _ & H).
  exact H.
Defined.
